(** * Lease-based lock and service registry over an etcd-like store

    A shallow embedding of the Go sources
      - [etcd_dlock_test.go]  ([TestDistributedLockNormal], the hand-written lock),
      - [service_registry/registry.go]  ([RegistryEtcd.Registry], [DeRegistry]),
      - [service_registry/discovery.go] ([DiscoveryEtcd.GetServiceAddr]).

    The store itself (etcd, reached through [clientv3]) is an external
    collaborator.  It is modelled below as a sequential state machine whose
    operations are atomic: keys with a creation revision and an optional
    lease, leases, compare-and-branch transactions and per-key watch
    streams.  The Go code is modelled as clients of that machine.

    What the environment decides is an explicit input: whether a remote
    call fails in transit, when a watch channel is closed, when a lease
    expires, which string [uuid.New()] returns and which number
    [rand.Intn] draws.  There is no clock: a lease expires when the
    environment says so, and [time.Sleep] is the time a caller spends at
    one program point. *)

From stdpp Require Import gmap strings list fin_maps.
From Stdlib Require Import ZArith String.

Set Default Proof Using "Type".

(** ** Errors and Go-style results *)

(** The [error] values the code can see.  [ErrUnavailable] stands for any
    transport failure reported by the client library, [ErrLeaseNotFound]
    is the store's answer to a write or revoke naming an unknown lease,
    and [ErrServiceNotFound] is [errors.New("service not found")]. *)
Inductive error : Type :=
  | ErrUnavailable
  | ErrLeaseNotFound
  | ErrServiceNotFound.

#[global] Instance error_eq_dec : EqDecision error.
Proof. solve_decision. Defined.

Inductive result (A : Type) : Type :=
  | Ok (a : A)
  | Err (e : error).
Arguments Ok {A} a.
Arguments Err {A} e.

(** ** The key-value store *)

Abbreviation LeaseID := Z.

(** [clientv3.NoLease]: the lease id that means "bound to no lease". *)
Definition NoLease : Z := 0%Z.

Module mvccpb.

Inductive EventType : Type := PUT | DELETE.

#[global] Instance EventType_eq_dec : EqDecision EventType.
Proof. solve_decision. Defined.

(** The value part of a stored pair; the key is the map key. *)
Record KeyValue : Type := mkKeyValue {
  Value : string;
  CreateRevision : Z;
  ModRevision : Z;
  Lease : Z
}.

Record Event : Type := mkEvent {
  Type_ : EventType;
  Key : string
}.

End mvccpb.

Import mvccpb.

(** A watch stream as the consumer sees it: the key it was opened on, the
    responses not yet read (each a batch of events), and whether the
    producer has closed the channel. *)
Record Watcher : Type := mkWatcher {
  w_key : string;
  w_queue : list (list Event);
  w_closed : bool
}.

Record Store : Type := mkStore {
  kvs : gmap string KeyValue;
  (** live leases, with the TTL they were granted with *)
  leases : gmap Z Z;
  (** the store-wide revision counter *)
  revision : Z;
  (** the next lease id [Grant] hands out *)
  next_lease : Z;
  (** open watch streams, indexed by the consumer that reads them *)
  watchers : gmap nat Watcher
}.

Definition store_init : Store :=
  {| kvs := ∅; leases := ∅; revision := 1; next_lease := 1; watchers := ∅ |}.

Definition with_watchers (ws : gmap nat Watcher) (s : Store) : Store :=
  {| kvs := kvs s; leases := leases s; revision := revision s;
     next_lease := next_lease s; watchers := ws |}.

Definition with_kvs (m : gmap string KeyValue) (rev : Z) (s : Store) : Store :=
  {| kvs := m; leases := leases s; revision := rev;
     next_lease := next_lease s; watchers := watchers s |}.

(** Deliver one event to every open stream watching its key. *)
Definition deliver (ev : Event) (w : Watcher) : Watcher :=
  if w_closed w then w
  else if decide (w_key w = Key ev)
       then {| w_key := w_key w; w_queue := w_queue w ++ [[ev]]; w_closed := false |}
       else w.

Definition notify (ev : Event) (s : Store) : Store :=
  with_watchers (deliver ev <$> watchers s) s.

(** [Grant(ttl)]: a fresh lease id. *)
Definition store_grant (ttl : Z) (s : Store) : result (Z * Store) :=
  let id := next_lease s in
  Ok (id, {| kvs := kvs s; leases := <[id := ttl]> (leases s);
             revision := revision s; next_lease := (id + 1)%Z;
             watchers := watchers s |}).

(** A put may name [NoLease] or a live lease; anything else is refused. *)
Definition lease_ok (l : Z) (s : Store) : bool :=
  bool_decide (l = NoLease) || bool_decide (is_Some (leases s !! l)).

(** Write [k] at revision [rev]; a key that already exists keeps its
    creation revision. *)
Definition put_at (rev : Z) (k v : string) (l : Z) (s : Store) : Store :=
  let cr := match kvs s !! k with
            | Some old => CreateRevision old
            | None => rev
            end in
  notify (mkEvent PUT k)
         (with_kvs (<[k := mkKeyValue v cr rev l]> (kvs s)) rev s).

(** Remove [k] at revision [rev]; nothing happens, and no event is
    produced, when the key is absent. *)
Definition delete_at (rev : Z) (k : string) (s : Store) : Z * Store :=
  match kvs s !! k with
  | Some _ => (1%Z, notify (mkEvent DELETE k) (with_kvs (delete k (kvs s)) rev s))
  | None => (0%Z, s)
  end.

(** [Put(key, value, WithLease(l))] *)
Definition store_put (k v : string) (l : Z) (s : Store) : result (unit * Store) :=
  if lease_ok l s then Ok (tt, put_at (revision s + 1) k v l s)
  else Err ErrLeaseNotFound.

(** [Delete(key)]: the number of keys removed. *)
Definition store_delete (k : string) (s : Store) : result (Z * Store) :=
  Ok (delete_at (revision s + 1) k s).

(** [Get(name, WithPrefix())]: every pair whose key starts with [name].
    The store returns them in key order; the only reader below picks an
    element at a random index, so the list is left in the map's order. *)
Definition has_prefix (name : string) (p : string * KeyValue) : Prop :=
  String.prefix name p.1 = true.

#[global] Instance has_prefix_dec name p : Decision (has_prefix name p).
Proof. unfold has_prefix. apply _. Defined.

Definition store_get_prefix (name : string) (s : Store)
  : result (list (string * KeyValue) * Store) :=
  Ok (map_to_list (filter (has_prefix name) (kvs s)), s).

(** Keys bound to lease [l]. *)
Definition bound_to (l : Z) (p : string * KeyValue) : Prop := Lease p.2 = l.

#[global] Instance bound_to_dec l p : Decision (bound_to l p).
Proof. unfold bound_to. apply _. Defined.

(** Dropping a lease deletes every key bound to it, with a Delete event
    for each. *)
Definition drop_lease (l : Z) (s : Store) : Store :=
  let gone := (map_to_list (filter (bound_to l) (kvs s))).*1 in
  let rev := if decide (gone = []) then revision s else (revision s + 1)%Z in
  foldr (λ k, notify (mkEvent DELETE k))
        {| kvs := filter (λ p, ¬ bound_to l p) (kvs s);
           leases := delete l (leases s); revision := rev;
           next_lease := next_lease s; watchers := watchers s |}
        gone.

(** [Revoke(l)] *)
Definition store_revoke (l : Z) (s : Store) : result (unit * Store) :=
  match leases s !! l with
  | Some _ => Ok (tt, drop_lease l s)
  | None => Err ErrLeaseNotFound
  end.

(** TTL expiry, decided by the store alone. *)
Definition store_expire (l : Z) (s : Store) : Store :=
  match leases s !! l with
  | Some _ => drop_lease l s
  | None => s
  end.

(** [KeepAlive(l)] opens the renewal stream; the abstract state has no
    clock, so renewal leaves it unchanged. *)
Definition store_keepalive (l : Z) (s : Store) : result (Z * Store) :=
  Ok (l, s).

(** *** Compare-and-branch transactions *)

Module clientv3.

(** What a comparison inspects.  [CreateRevision key] is 0 for a key that
    does not exist. *)
Inductive CmpTarget : Type :=
  | CreateRevision (key : string)
  | ModRevision (key : string).

Inductive CmpOp : Type := CmpEq | CmpNe | CmpGt | CmpLt.

Inductive Cmp : Type := Compare (target : CmpTarget) (op : CmpOp) (v : Z).

Inductive Op : Type :=
  | OpPut (key val : string) (lease : Z)
  | OpDelete (key : string).

(** [client.Txn(ctx).If(cmps...).Then(ops...).Else(ops...)] *)
Record Txn : Type := mkTxn {
  If : list Cmp;
  Then : list Op;
  Else : list Op
}.

Record TxnResponse : Type := mkTxnResponse { Succeeded : bool }.

End clientv3.

Import clientv3.

Definition target_value (t : CmpTarget) (s : Store) : Z :=
  match t with
  | CreateRevision k => from_option mvccpb.CreateRevision 0%Z (kvs s !! k)
  | ModRevision k => from_option mvccpb.ModRevision 0%Z (kvs s !! k)
  end.

Definition eval_cmp (s : Store) (c : Cmp) : bool :=
  match c with
  | Compare t op v =>
      let x := target_value t s in
      match op with
      | CmpEq => bool_decide (x = v)
      | CmpNe => bool_decide (x ≠ v)
      | CmpGt => bool_decide (v < x)%Z
      | CmpLt => bool_decide (x < v)%Z
      end
  end.

(** The store validates the operations of the branch it is about to run
    (and only those) before applying any of them. *)
Definition check_op (s : Store) (o : Op) : bool :=
  match o with
  | OpPut _ _ l => lease_ok l s
  | OpDelete _ => true
  end.

Definition apply_op (rev : Z) (s : Store) (o : Op) : Store :=
  match o with
  | OpPut k v l => put_at rev k v l s
  | OpDelete k => (delete_at rev k s).2
  end.

(** [Commit()]: evaluate the guard, pick a branch, run it atomically. *)
Definition store_txn (t : Txn) (s : Store) : result (TxnResponse * Store) :=
  let ok := forallb (eval_cmp s) (If t) in
  let branch := if ok then Then t else Else t in
  if forallb (check_op s) branch
  then Ok (mkTxnResponse ok, foldl (apply_op (revision s + 1)) s branch)
  else Err ErrLeaseNotFound.

(** *** Watch streams *)

(** [client.Watch(ctx, key)] for consumer [i]: a new, empty, open stream
    that starts at the current revision.  A stream the consumer had
    before is no longer read and is dropped here. *)
Definition store_watch (i : nat) (k : string) (s : Store) : Store :=
  with_watchers (<[i := mkWatcher k [] false]> (watchers s)) s.

(** The producer side closes consumer [i]'s channel (connection lost,
    context cancelled). *)
Definition store_close_watch (i : nat) (s : Store) : Store :=
  with_watchers
    (alter (λ w, {| w_key := w_key w; w_queue := w_queue w; w_closed := true |})
           i (watchers s)) s.

(** What [for w := range watchChan] sees next: a response, the end of a
    closed and drained channel, or nothing yet ([None]: the loop blocks). *)
Inductive Received : Type :=
  | Response (events : list Event)
  | ChannelClosed.

Definition store_recv (i : nat) (s : Store) : option (Received * Store) :=
  match watchers s !! i with
  | Some w =>
      match w_queue w with
      | evs :: q =>
          Some (Response evs,
                with_watchers (<[i := {| w_key := w_key w; w_queue := q;
                                         w_closed := w_closed w |}]> (watchers s)) s)
      | [] => if w_closed w then Some (ChannelClosed, s) else None
      end
  | None => None
  end.

(** *** Remote calls *)

(** One client call.  When the environment makes the call fail in
    transit ([fault]) the store is not touched and the caller gets a
    transport error; otherwise the operation runs atomically and its own
    verdict is returned. *)
Definition rpc {A} (fault : bool) (f : Store → result (A * Store)) (s : Store)
  : result A * Store :=
  if fault then (Err ErrUnavailable, s)
  else match f s with
       | Ok (a, s') => (Ok a, s')
       | Err e => (Err e, s)
       end.

(** ** The hand-written lock: [TestDistributedLockNormal] *)

Module DLock.

Definition lockKey : string := "my-distributed-lock-normal".

(** The transaction built at label [getlock]:
    [If(Compare(CreateRevision(lockKey), "=", 0)).Then(OpPut(lockKey, "locked", WithLease(id)))]. *)
Definition lock_txn (lease : Z) : Txn :=
  {| If := [Compare (CreateRevision lockKey) CmpEq 0%Z];
     Then := [OpPut lockKey "locked" lease];
     Else := [] |}.

(** Where a caller stands in the function body.  Each point names the
    store call it is about to make. *)
Inductive PC : Type :=
  | AtGrant            (** [client.Grant(ctx, 5)] *)
  | AtKeepAlive        (** [client.KeepAlive(ctx, leaseResp.ID)] *)
  | AtTxn              (** label [getlock]: build and commit the transaction *)
  | AtWatch            (** [client.Watch(ctx, lockKey)] *)
  | AtRange            (** [for w := range watchChan] *)
  | AtCritical         (** the critical section; its exit is [client.Delete(ctx, lockKey)] *)
  | Returned           (** after "Lock released" *)
  | Fatal (e : error). (** [t.Fatalf] *)

#[global] Instance PC_eq_dec : EqDecision PC.
Proof. solve_decision. Defined.

Record Proc : Type := mkProc {
  pc : PC;
  (** [leaseResp.ID] *)
  leaseID : Z
}.

Definition goto (l : PC) (p : Proc) : Proc := {| pc := l; leaseID := leaseID p |}.

Definition proc_init : Proc := {| pc := AtGrant; leaseID := NoLease |}.

(** The inner loop over [w.Events]: does the batch carry a Delete? *)
Fixpoint has_delete (events : list Event) : bool :=
  match events with
  | [] => false
  | ev :: rest =>
      if decide (Type_ ev = DELETE) then true else has_delete rest
  end.

(** One pass of [for w := range watchChan].  A batch with a Delete event
    jumps back to [getlock]; any other batch keeps waiting; when the
    channel is closed the loop ends and control falls out of the [else]
    branch, onto the critical section. *)
Definition on_receive (m : Received) (p : Proc) : Proc :=
  match m with
  | Response events => if has_delete events then goto AtTxn p else p
  | ChannelClosed => goto AtCritical p
  end.

(** One action of caller [i].  [None] means it cannot move: it has
    finished, or it is blocked on an empty open channel.  [Watch] reports
    no error of its own: a watch that fails shows as a closed channel. *)
Definition step (i : nat) (fault : bool) (p : Proc) (s : Store) : option (Proc * Store) :=
  match pc p with
  | AtGrant =>
      let '(r, s') := rpc fault (store_grant 5) s in
      Some (match r with
            | Ok id => {| pc := AtKeepAlive; leaseID := id |}
            | Err e => goto (Fatal e) p
            end, s')
  | AtKeepAlive =>
      let '(r, s') := rpc fault (store_keepalive (leaseID p)) s in
      Some (match r with
            | Ok _ => goto AtTxn p
            | Err e => goto (Fatal e) p
            end, s')
  | AtTxn =>
      let '(r, s') := rpc fault (store_txn (lock_txn (leaseID p))) s in
      Some (match r with
            | Err e => goto (Fatal e) p
            | Ok txnResp =>
                if Succeeded txnResp then goto AtCritical p else goto AtWatch p
            end, s')
  | AtWatch => Some (goto AtRange p, store_watch i lockKey s)
  | AtRange =>
      match store_recv i s with
      | Some (m, s') => Some (on_receive m p, s')
      | None => None
      end
  | AtCritical =>
      let '(r, s') := rpc fault (store_delete lockKey) s in
      Some (match r with
            | Ok _ => goto Returned p
            | Err e => goto (Fatal e) p
            end, s')
  | Returned | Fatal _ => None
  end.

(** *** Several callers against one store *)

Record System : Type := mkSystem {
  store : Store;
  procs : gmap nat Proc
}.

(** What can happen next: a caller takes its next action (and the
    environment may make that call fail), a watch channel is closed, or
    the store expires a lease. *)
Inductive Label : Type :=
  | Run (i : nat) (fault : bool)
  | CloseWatch (i : nat)
  | Expire (l : Z).

Definition sys_step (lbl : Label) (σ : System) : option System :=
  match lbl with
  | Run i fault =>
      match procs σ !! i with
      | Some p =>
          match step i fault p (store σ) with
          | Some (p', s') => Some {| store := s'; procs := <[i := p']> (procs σ) |}
          | None => None
          end
      | None => None
      end
  | CloseWatch i =>
      Some {| store := store_close_watch i (store σ); procs := procs σ |}
  | Expire l =>
      Some {| store := store_expire l (store σ); procs := procs σ |}
  end.

Fixpoint run (sched : list Label) (σ : System) : option System :=
  match sched with
  | [] => Some σ
  | lbl :: rest =>
      match sys_step lbl σ with
      | Some σ' => run rest σ'
      | None => None
      end
  end.

(** [n] callers, numbered from 0, about to start, and an empty store. *)
Definition init (n : nat) : System :=
  {| store := store_init; procs := map_seq 0 (replicate n proc_init) |}.

(** Caller [i] is in the Held state: inside the critical section, its
    lease still alive (a holder whose lease expired has been forced out
    of Held by the store). *)
Definition held (σ : System) (i : nat) : bool :=
  match procs σ !! i with
  | Some p =>
      bool_decide (pc p = AtCritical)
      && bool_decide (is_Some (leases (store σ) !! leaseID p))
  | None => false
  end.

Definition Held (σ : System) (i : nat) : Prop := held σ i = true.

(** Caller [i] is a waiter: it reads an open watch stream on the lock key. *)
Definition waiter (σ : System) (i : nat) : Prop :=
  (∃ p, procs σ !! i = Some p ∧ pc p = AtRange) ∧
  (∃ w, watchers (store σ) !! i = Some w ∧ w_key w = lockKey ∧ w_closed w = false).

(** An environment event that leaves a running critical section alone:
    no watch channel is closed, and no lease expires while its owner is
    in the critical section. *)
Definition spares (σ : System) (l : Z) : Prop :=
  map_Forall (λ _ p, pc p = AtCritical → leaseID p ≠ l) (procs σ).

#[global] Instance spares_dec σ l : Decision (spares σ l).
Proof. unfold spares. apply _. Defined.

Definition undisturbed (σ : System) (lbl : Label) : bool :=
  match lbl with
  | Run _ _ => true
  | CloseWatch _ => false
  | Expire l => bool_decide (spares σ l)
  end.

Fixpoint quiet (sched : list Label) (σ : System) : bool :=
  match sched with
  | [] => true
  | lbl :: rest =>
      undisturbed σ lbl &&
      match sys_step lbl σ with
      | Some σ' => quiet rest σ'
      | None => true
      end
  end.

End DLock.

(** ** Service registration and discovery *)

Module ServiceRegistry.

(** 租约时间5秒 *)
Definition LeaseTTL : Z := 5.

(** 服务信息接口 *)
Class Service (T : Type) : Type := {
  Name : T → string;
  Addr : T → string
}.

Record OrderService : Type := mkOrderService {
  name : string;
  addr : string
}.

#[global] Instance OrderService_Service : Service OrderService :=
  {| Name := name; Addr := addr |}.

(** The part of [*clientv3.Client] the code depends on. *)
Record Client : Type := mkClient { closed : bool }.

(** What the calls below run in: the store, and the environment's
    decision, call by call, whether the next remote call fails in
    transit ([true]); an exhausted script means no more failures. *)
Record World : Type := mkWorld {
  etcd : Store;
  faults : list bool
}.

Definition M (A : Type) : Type := World → A * World.

Definition ret {A} (a : A) : M A := λ w, (a, w).

Definition bind {A B} (m : M A) (k : A → M B) : M B :=
  λ w, let '(a, w') := m w in k a w'.

Notation "x <- m ;; k" := (bind m (λ x, k))
  (at level 100, m at next level, right associativity).

(** A remote call through client [c]; a closed client reaches nothing. *)
Definition call {A} (c : Client) (f : Store → result (A * Store)) : M (result A) :=
  λ w, if closed c then (Err ErrUnavailable, w)
       else let '(r, s') := rpc (hd false (faults w)) f (etcd w) in
            (r, {| etcd := s'; faults := tl (faults w) |}).

(** [client.Close()]: local resources are released whatever the
    connection teardown reports. *)
Definition Close (c : Client) : M (option error * Client) :=
  λ w, (if hd false (faults w) then Some ErrUnavailable else None,
        {| closed := true |},
        {| etcd := etcd w; faults := tl (faults w) |}).

Record RegistryEtcd : Type := mkRegistryEtcd {
  client : Client;
  leaseID : Z;
  leaseTTL : Z;
  (** the lease whose renewal acknowledgements the channel carries *)
  leaseKeepAliveRespCh : option Z
}.

(** [NewEtcdRegistry], once connected. *)
Definition NewEtcdRegistry (ttl : Z) : RegistryEtcd :=
  {| client := {| closed := false |}; leaseID := 0; leaseTTL := ttl;
     leaseKeepAliveRespCh := None |}.

(** [func (r *RegistryEtcd) Registry(service Service) error].  [u] is the
    string [uuid.New().String()] returns in this call.  The receiver is
    a pointer: the updated struct is returned next to the error. *)
Definition Registry `{Service T} (service : T) (u : string) (r : RegistryEtcd)
  : M (option error * RegistryEtcd) :=
  grantResp <- call (client r) (store_grant (leaseTTL r)) ;;
  match grantResp with
  | Err err => ret (Some err, r)
  | Ok id =>
      let r := {| client := client r; leaseID := id; leaseTTL := leaseTTL r;
                  leaseKeepAliveRespCh := leaseKeepAliveRespCh r |} in
      let serviceName := Name service +:+ "-" +:+ u in
      putResp <- call (client r) (store_put serviceName (Addr service) (leaseID r)) ;;
      match putResp with
      | Err err => ret (Some err, r)
      | Ok _ =>
          ka <- call (client r) (store_keepalive (leaseID r)) ;;
          match ka with
          | Err err => ret (Some err, r)
          | Ok ch =>
              ret (None, {| client := client r; leaseID := leaseID r;
                            leaseTTL := leaseTTL r;
                            leaseKeepAliveRespCh := Some ch |})
          end
      end
  end.

(** [func (r *RegistryEtcd) DeRegistry() error] *)
Definition DeRegistry (r : RegistryEtcd) : M (option error * RegistryEtcd) :=
  revokeResp <- call (client r) (store_revoke (leaseID r)) ;;
  match revokeResp with
  | Err err => ret (Some err, r)
  | Ok _ =>
      closeResp <- Close (client r) ;;
      let r := {| client := closeResp.2; leaseID := leaseID r;
                  leaseTTL := leaseTTL r;
                  leaseKeepAliveRespCh := leaseKeepAliveRespCh r |} in
      ret (closeResp.1, r)
  end.

Record DiscoveryEtcd : Type := mkDiscoveryEtcd { d_client : Client }.

(** [rand.Intn(n)] for [n > 0]: a value in [[0, n)].  The generator is
    the environment's; [draw] is the number it produces for this call. *)
Definition Intn (draw : nat) (n : nat) : nat := draw `mod` n.

(** [func (d *DiscoveryEtcd) GetServiceAddr(name string) (string, error)] *)
Definition GetServiceAddr (d : DiscoveryEtcd) (name : string) (draw : nat)
  : M (string * option error) :=
  resp <- call (d_client d) (store_get_prefix name) ;;
  match resp with
  | Err err => ret (""%string, Some err)
  | Ok Kvs =>
      if decide (List.length Kvs = 0) then ret (""%string, Some ErrServiceNotFound)
      else
        let randIndex := Intn draw (List.length Kvs) in
        let addr := from_option (λ kv, Value kv.2) ""%string (Kvs !! randIndex) in
        ret (addr, None)
  end.

End ServiceRegistry.

(** * Vocabulary of the statements *)

Import DLock.

(** ** Invariant of undisturbed executions of the lock *)

(** Store side: revisions of existing keys are positive (so "creation
    revision = 0" means "absent"), lease ids are positive, and no watch
    channel has been closed. *)
Record store_ok (s : Store) : Prop := {
  ok_revision : (0 ≤ revision s)%Z;
  ok_created : ∀ kv, kvs s !! lockKey = Some kv → (0 < mvccpb.CreateRevision kv)%Z;
  ok_next : (0 < next_lease s)%Z;
  ok_open : ∀ i w, watchers s !! i = Some w → w_closed w = false
}.

(** Caller side: every caller past [Grant] owns a lease of its own, and a
    caller in the critical section owns the lock key. *)
Record procs_ok (s : Store) (P : gmap nat Proc) : Prop := {
  ok_bound : ∀ i p, P !! i = Some p → (DLock.leaseID p < next_lease s)%Z;
  ok_granted : ∀ i p, P !! i = Some p → DLock.leaseID p = 0%Z →
               pc p = AtGrant ∨ ∃ e, pc p = Fatal e;
  ok_distinct : ∀ i j p q, P !! i = Some p → P !! j = Some q →
                DLock.leaseID p = DLock.leaseID q → DLock.leaseID p ≠ 0%Z → i = j;
  ok_holder : ∀ i p, P !! i = Some p → pc p = AtCritical →
              ∃ kv, kvs s !! lockKey = Some kv ∧ Lease kv = DLock.leaseID p
}.

Definition inv (σ : System) : Prop :=
  store_ok (store σ) ∧ procs_ok (store σ) (procs σ).

(** ** States and schedules *)

Definition pc_of (σ : System) (i : nat) : option PC := pc <$> procs σ !! i.

(** The state a schedule leads to (the initial state again when the
    schedule cannot be run). *)
Definition after (sched : list Label) (n : nat) : System :=
  default (init n) (run sched (init n)).

(** A caller whose transaction has failed and which has not retried yet:
    it is about to open its watch, or is reading it. *)
Definition contending (σ : System) (j : nat) : Prop :=
  pc_of σ j = Some AtWatch ∨ pc_of σ j = Some AtRange.

(** Caller 0 takes the lock; caller 1 arrives, fails the transaction and
    opens its watch. *)
Definition sched_contended : list Label :=
  [Run 0 false; Run 0 false; Run 0 false;
   Run 1 false; Run 1 false; Run 1 false; Run 1 false].


(** Existing keys have a positive creation revision: "creation revision
    = 0" is the store's way of saying "absent". *)
Definition revisions_ok (s : Store) : Prop :=
  (0 ≤ revision s)%Z
  ∧ map_Forall (λ _ kv, (0 < mvccpb.CreateRevision kv)%Z) (kvs s).

(** The store after one [Grant]. *)
Definition store_one_lease : Store :=
  {| kvs := ∅; leases := {[ 1%Z := 5%Z ]}; revision := 1; next_lease := 2;
     watchers := ∅ |}.

(** Caller 0 holds the lock, caller 1 waits on its watch, and the watch
    channel of caller 1 is closed. *)
Definition sched_watch_closed : list Label :=
  sched_contended ++ [CloseWatch 1].

(** Caller 0 holds the lock; caller 1 has been granted lease 2 and has
    started renewal, but the lease expires before its first attempt. *)
Definition sched_dead_lease : list Label :=
  [Run 0 false; Run 0 false; Run 0 false;
   Run 1 false; Run 1 false;
   Expire 2].

(** ** Registration scenarios *)

Import ServiceRegistry.

(** The store right after [Grant(ttl)]. *)
Definition granted (ttl : Z) (s : Store) : Store :=
  {| kvs := kvs s; leases := <[next_lease s := ttl]> (leases s);
     revision := revision s; next_lease := (next_lease s + 1)%Z;
     watchers := watchers s |}.

(** The receiver after [r.leaseID = grantResp.ID]. *)
Definition with_lease (id : Z) (r : RegistryEtcd) : RegistryEtcd :=
  {| client := client r; ServiceRegistry.leaseID := id; leaseTTL := leaseTTL r;
     leaseKeepAliveRespCh := leaseKeepAliveRespCh r |}.

(** No record is bound to a lease that is not alive. *)
Definition leases_cover (s : Store) : Prop :=
  map_Forall (λ _ kv, Lease kv = NoLease ∨ is_Some (leases s !! Lease kv)) (kvs s).

(** A fresh registry on an empty store, where the second remote call
    (the put) fails in transit. *)
Definition world_put_fails : World :=
  {| etcd := store_init; faults := [false; true] |}.

(** One process registers two instances of "svc" through one registry
    and then deregisters, all calls succeeding. *)
Definition world0 : World := {| etcd := store_init; faults := [] |}.

Definition registered_once : option error * RegistryEtcd * World :=
  Registry (mkOrderService "svc" "host:1") "a" (NewEtcdRegistry LeaseTTL) world0.

Definition registered_twice : option error * RegistryEtcd * World :=
  Registry (mkOrderService "svc" "host:2") "b" registered_once.1.2 registered_once.2.

Definition deregistered : option error * RegistryEtcd * World :=
  DeRegistry registered_twice.1.2 registered_twice.2.

(** The same with a single registration. *)
Definition deregistered_single : option error * RegistryEtcd * World :=
  DeRegistry registered_once.1.2 registered_once.2.

Definition resolver : DiscoveryEtcd := {| d_client := {| closed := false |} |}.


(** ** The rest of the code *)

(** [Get(key)] without options: the pair stored under exactly [k], if any. *)
Definition store_get (k : string) (s : Store)
  : result (list (string * KeyValue) * Store) :=
  Ok (match kvs s !! k with
      | Some kv => [(k, kv)]
      | None => []
      end, s).

(** Lease ids in use are positive and below the next id [Grant] hands
    out, in the lease table and in the records. *)
Definition ids_ok (s : Store) : Prop :=
  (0 < next_lease s)%Z
  ∧ map_Forall (λ l _, (0 < l < next_lease s)%Z) (leases s)
  ∧ map_Forall (λ _ kv, (Lease kv < next_lease s)%Z) (kvs s).

(** What holds of the lock key in every execution, disturbed or not:
    callers past [Grant] carry a lease id, and the key, when it exists,
    is bound to a live lease. *)
Record lease_inv (σ : System) : Prop := {
  li_next : (0 < next_lease (store σ))%Z;
  li_granted : ∀ i p, procs σ !! i = Some p → DLock.leaseID p = NoLease →
               pc p = AtGrant ∨ ∃ e, pc p = Fatal e;
  li_key : ∀ kv, kvs (store σ) !! lockKey = Some kv →
           Lease kv ≠ NoLease ∧ is_Some (leases (store σ) !! Lease kv)
}.

(** *** Constructors: [NewEtcdRegistry], [NewEtcdDiscovery] *)

Module Connect.

(** [clientv3.Config], the fields the code sets. *)
Record Config : Type := mkConfig {
  Endpoints : list string;
  DialTimeout : Z
}.

(** Why a constructor returned [nil, err]:
    [errors.New("etcd endpoints cannot be empty")], or the error of
    [clientv3.New]. *)
Inductive new_error : Type :=
  | EndpointsEmpty
  | NewFailed (e : error).

(** [clientv3.New(cfg)]; whether it fails is the environment's. *)
Definition New (cfg : Config) (fails : bool) : result Client :=
  if fails then Err ErrUnavailable else Ok {| closed := false |}.

(** [func NewEtcdRegistry(endpoints []string, timeout time.Duration,
    leaseTTL int64)], returning a [*RegistryEtcd] or an error *)
Definition NewEtcdRegistry (endpoints : list string) (timeout : Z) (leaseTTL : Z)
    (fails : bool) : new_error + RegistryEtcd :=
  if decide (List.length endpoints = 0) then inl EndpointsEmpty
  else match New {| Endpoints := endpoints; DialTimeout := timeout |} fails with
       | Err err => inl (NewFailed err)
       | Ok cli =>
           inr {| client := cli; ServiceRegistry.leaseID := 0;
                  ServiceRegistry.leaseTTL := leaseTTL;
                  leaseKeepAliveRespCh := None |}
       end.

(** [func NewEtcdDiscovery(endpoints []string, dialTimeout time.Duration)],
    returning a [*DiscoveryEtcd] or an error *)
Definition NewEtcdDiscovery (endpoints : list string) (dialTimeout : Z)
    (fails : bool) : new_error + DiscoveryEtcd :=
  if decide (List.length endpoints = 0) then inl EndpointsEmpty
  else match New {| Endpoints := endpoints; DialTimeout := dialTimeout |} fails with
       | Err err => inl (NewFailed err)
       | Ok cli => inr {| d_client := cli |}
       end.

End Connect.

(** *** The callers: [TestRegistry], [TestDiscovery], [TestEtcd] *)

Module Tests.

(** How [TestRegistry] ends: normally, at one of its [log.Fatalf], or not
    at all, blocked on the receive [<-ChInt]. *)
Inductive Exit : Type :=
  | Passed
  | BlockedOnSignal
  | FailedCreate (e : Connect.new_error)
  | FailedRegister1 (e : error)
  | FailedRegister2 (e : error)
  | FailedDeregister (e : error).

Definition service1 : OrderService :=
  {| name := "order_service"; addr := "localhost:8080" |}.

Definition service2 : OrderService :=
  {| name := "order_service"; addr := "localhost:8080" |}.

(** [TestRegistry]: two registrations through one registry, the receive
    [<-ChInt], one deregistration.  [u1], [u2] are the two uuid strings
    drawn.  [interrupt] says whether an interrupt signal ever arrives on
    [ChInt]; without one the receive blocks for ever and [DeRegistry] is
    never reached. *)
Definition TestRegistry (fails : bool) (u1 u2 : string) (interrupt : bool) : M Exit :=
  match Connect.NewEtcdRegistry ["localhost:2379"%string] 5 LeaseTTL fails with
  | inl err => ret (FailedCreate err)
  | inr registry =>
      r1 <- Registry service1 u1 registry ;;
      match r1.1 with
      | Some err => ret (FailedRegister1 err)
      | None =>
          r2 <- Registry service2 u2 r1.2 ;;
          match r2.1 with
          | Some err => ret (FailedRegister2 err)
          | None =>
              if interrupt then
                r3 <- DeRegistry r2.2 ;;
                match r3.1 with
                | Some err => ret (FailedDeregister err)
                | None => ret Passed
                end
              else ret BlockedOnSignal
          end
      end
  end.

(** [TestDiscovery]: the address logged, or the error it stops on. *)
Definition TestDiscovery (fails : bool) (draw : nat)
  : M (Connect.new_error + (string * option error)) :=
  match Connect.NewEtcdDiscovery ["localhost:2379"%string] 5 fails with
  | inl err => ret (inl err)
  | inr cli =>
      res <- GetServiceAddr cli "order_service" draw ;;
      ret (inr res)
  end.

(** The lines [TestEtcd] logs. *)
Inductive LogLine : Type :=
  | LogPutResponse
  | LogGet (key value : string)
  | LogCloseFailed (e : error).

Definition close_log (e : option error) : list LogLine :=
  match e with
  | Some err => [LogCloseFailed err]
  | None => []
  end.

(** [TestEtcd]: put, get, log every pair read.  The deferred [Close]
    runs on every way out once the client exists.  The result is the
    error [t.Fatalf] stopped on, if any, and the lines logged. *)
Definition TestEtcd (fails : bool) : M (option error * list LogLine) :=
  match Connect.New {| Connect.Endpoints := ["localhost:2379"%string];
                       Connect.DialTimeout := 5 |} fails with
  | Err err => ret (Some err, [])
  | Ok cli =>
      resp <- call cli (store_put "sample_key" "sample_value" NoLease) ;;
      match resp with
      | Err err =>
          c <- Close cli ;; ret (Some err, close_log c.1)
      | Ok _ =>
          getResp <- call cli (store_get "sample_key") ;;
          match getResp with
          | Err err =>
              c <- Close cli ;; ret (Some err, LogPutResponse :: close_log c.1)
          | Ok Kvs =>
              c <- Close cli ;;
              ret (None,
                   LogPutResponse
                   :: ((λ kv, LogGet kv.1 (Value kv.2)) <$> Kvs) ++ close_log c.1)
          end
      end
  end.

End Tests.

(** *** The spin lock: [spin_lock.go] *)

Module Spin.

(** [atomic.CompareAndSwapInt32(addr, old, new)] on the content of the
    cell: the new content and whether the swap happened. *)
Definition CompareAndSwapInt32 (cell old new : Z) : Z * bool :=
  if decide (cell = old) then (new, true) else (cell, false).

(** [atomic.StoreInt32(addr, val)] *)
Definition StoreInt32 (cell val : Z) : Z := val.

Record SpinLock : Type := mkSpinLock { flag : Z }.

(** One evaluation of the loop condition of [Lock]: the lock afterwards,
    and whether the loop is left. *)
Definition Lock_iter (sl : SpinLock) : SpinLock * bool :=
  let '(cell, swapped) := CompareAndSwapInt32 (flag sl) 0 1 in
  ({| flag := cell |}, swapped).

(** [func (sl *SpinLock) Lock()], run alone for at most [fuel] turns of
    the loop; [None] when it is still spinning. *)
Fixpoint Lock (fuel : nat) (sl : SpinLock) : option SpinLock :=
  match fuel with
  | 0 => None
  | S fuel' =>
      let '(sl', swapped) := Lock_iter sl in
      if swapped then Some sl' else Lock fuel' sl'
  end.

(** [func (sl *SpinLock) Unlock()] *)
Definition Unlock (sl : SpinLock) : SpinLock :=
  {| flag := StoreInt32 (flag sl) 0 |}.

(** Where a goroutine that uses the lock stands: not using it, inside
    the loop of [Lock], or between the return of [Lock] and its call of
    [Unlock]. *)
Inductive Where : Type := Outside | InLock | Inside.

#[global] Instance Where_eq_dec : EqDecision Where.
Proof. solve_decision. Defined.

Record Threads : Type := mkThreads {
  sl : SpinLock;
  at_ : gmap nat Where
}.

(** The next atomic action of goroutine [i]: it calls [Lock], or
    evaluates the loop condition once, or calls [Unlock]. *)
Definition act (i : nat) (σ : Threads) : option Threads :=
  match at_ σ !! i with
  | Some Outside => Some {| sl := sl σ; at_ := <[i := InLock]> (at_ σ) |}
  | Some InLock =>
      let '(sl', swapped) := Lock_iter (sl σ) in
      Some {| sl := sl'; at_ := <[i := if swapped then Inside else InLock]> (at_ σ) |}
  | Some Inside => Some {| sl := Unlock (sl σ); at_ := <[i := Outside]> (at_ σ) |}
  | None => None
  end.

Fixpoint run (sched : list nat) (σ : Threads) : option Threads :=
  match sched with
  | [] => Some σ
  | i :: rest =>
      match act i σ with
      | Some σ' => run rest σ'
      | None => None
      end
  end.

(** [n] goroutines sharing one zero-valued lock. *)
Definition init (n : nat) : Threads :=
  {| sl := {| flag := 0 |}; at_ := map_seq 0 (replicate n Outside) |}.

(** The flag is 1 exactly while somebody is inside, and only one is. *)
Record inv (σ : Threads) : Prop := {
  inv_flag : flag (sl σ) = 0%Z ∨ flag (sl σ) = 1%Z;
  inv_inside : ∀ i, at_ σ !! i = Some Inside → flag (sl σ) = 1%Z;
  inv_one : ∀ i j, at_ σ !! i = Some Inside → at_ σ !! j = Some Inside → i = j;
  inv_taken : flag (sl σ) = 1%Z → ∃ i, at_ σ !! i = Some Inside
}.

End Spin.

(** * Facts about the store *)

Lemma kvs_notify ev s : kvs (notify ev s) = kvs s.
Proof. reflexivity. Qed.

Lemma leases_notify ev s : leases (notify ev s) = leases s.
Proof. reflexivity. Qed.

Lemma foldr_notify_fields (ks : list string) s :
  let s' := foldr (λ k, notify (mkEvent DELETE k)) s ks in
  kvs s' = kvs s ∧ leases s' = leases s ∧ revision s' = revision s
  ∧ next_lease s' = next_lease s.
Proof. induction ks as [|k ks IH]; simpl in *; [done | apply IH]. Qed.

Lemma kvs_drop_lease l s :
  kvs (drop_lease l s) = filter (λ p, ¬ bound_to l p) (kvs s).
Proof. unfold drop_lease. by destruct (foldr_notify_fields
  ((map_to_list (filter (bound_to l) (kvs s))).*1)
  {| kvs := filter (λ p, ¬ bound_to l p) (kvs s); leases := delete l (leases s);
     revision := if decide ((map_to_list (filter (bound_to l) (kvs s))).*1 = [])
                 then revision s else (revision s + 1)%Z;
     next_lease := next_lease s; watchers := watchers s |}) as (-> & _).
Qed.

Lemma leases_drop_lease l s : leases (drop_lease l s) = delete l (leases s).
Proof. unfold drop_lease.
  match goal with |- context [foldr _ ?b ?ks] =>
    by destruct (foldr_notify_fields ks b) as (_ & -> & _) end.
Qed.

Lemma next_lease_drop_lease l s : next_lease (drop_lease l s) = next_lease s.
Proof. unfold drop_lease.
  match goal with |- context [foldr _ ?b ?ks] =>
    by destruct (foldr_notify_fields ks b) as (_ & _ & _ & ->) end.
Qed.

Lemma revision_drop_lease l s :
  (revision s ≤ revision (drop_lease l s))%Z.
Proof. unfold drop_lease.
  match goal with |- context [foldr _ ?b ?ks] =>
    destruct (foldr_notify_fields ks b) as (_ & _ & -> & _) end.
  simpl. case_decide; lia.
Qed.

(** The lock transaction, evaluated: it tests whether the key exists, and
    only a successful test leads to the put (and to its lease check). *)
Lemma store_txn_lock_txn l s :
  store_txn (lock_txn l) s =
    if bool_decide (from_option mvccpb.CreateRevision 0%Z (kvs s !! lockKey) = 0%Z)
    then if lease_ok l s
         then Ok (mkTxnResponse true, put_at (revision s + 1) lockKey "locked" l s)
         else Err ErrLeaseNotFound
    else Ok (mkTxnResponse false, s).
Proof.
  unfold store_txn, lock_txn. simpl.
  destruct (bool_decide _); simpl; [|done].
  by destruct (lease_ok l s).
Qed.

(** * The lock: invariant of undisturbed executions *)

Lemma deliver_closed ev w : w_closed (deliver ev w) = w_closed w.
Proof. unfold deliver. destruct (w_closed w) eqn:E; [done|]. by case_decide. Qed.

Lemma notify_open ev s :
  (∀ i w, watchers s !! i = Some w → w_closed w = false) →
  ∀ i w, watchers (notify ev s) !! i = Some w → w_closed w = false.
Proof.
  intros H i w. unfold notify; simpl. rewrite lookup_fmap.
  destruct (watchers s !! i) as [w0|] eqn:E; simpl; [|done].
  intros [= <-]. rewrite deliver_closed. eauto.
Qed.

Lemma foldr_notify_open (ks : list string) s :
  (∀ i w, watchers s !! i = Some w → w_closed w = false) →
  ∀ i w, watchers (foldr (λ k, notify (mkEvent DELETE k)) s ks) !! i = Some w →
         w_closed w = false.
Proof. induction ks as [|k ks IH]; simpl; [done|]. intros H. by apply notify_open, IH. Qed.

Lemma store_ok_init : store_ok store_init.
Proof. split; simpl; try lia; intros ?; by rewrite ?lookup_empty. Qed.

Lemma store_ok_put_at s v l :
  store_ok s → store_ok (put_at (revision s + 1) lockKey v l s).
Proof.
  intros [Hr Hc Hn Ho]. unfold put_at. split.
  - simpl. lia.
  - intros kv. rewrite kvs_notify. simpl. rewrite lookup_insert_eq.
    intros [= <-]. simpl. destruct (kvs s !! lockKey) eqn:E; [eauto | lia].
  - done.
  - apply notify_open. done.
Qed.

Lemma store_ok_delete_at s k :
  store_ok s → store_ok (delete_at (revision s + 1) k s).2.
Proof.
  intros [Hr Hc Hn Ho]. unfold delete_at.
  destruct (kvs s !! k) eqn:E; simpl; [|done]. split.
  - simpl. lia.
  - intros kv. rewrite kvs_notify. simpl. intros H.
    apply lookup_delete_Some in H as [_ H]. eauto.
  - done.
  - by apply notify_open.
Qed.

Lemma store_ok_drop_lease s l : store_ok s → store_ok (drop_lease l s).
Proof.
  intros [Hr Hc Hn Ho]. split.
  - pose proof (revision_drop_lease l s). lia.
  - intros kv. rewrite kvs_drop_lease. intros H.
    apply map_lookup_filter_Some in H as [H _]. eauto.
  - by rewrite next_lease_drop_lease.
  - unfold drop_lease. by apply foldr_notify_open.
Qed.

Lemma store_ok_expire s l : store_ok s → store_ok (store_expire l s).
Proof.
  intros H. unfold store_expire. destruct (leases s !! l); [|done].
  by apply store_ok_drop_lease.
Qed.

Lemma store_ok_watch s i k : store_ok s → store_ok (store_watch i k s).
Proof.
  intros [Hr Hc Hn Ho]. split; try done.
  intros j w. simpl. rewrite lookup_insert. case_decide; [by intros [= <-]|eauto].
Qed.

Lemma store_recv_Some s i m s' :
  store_recv i s = Some (m, s') →
  ∃ w, watchers s !! i = Some w ∧
    match m with
    | Response events =>
        ∃ q, w_queue w = events :: q ∧
          s' = with_watchers (<[i := {| w_key := w_key w; w_queue := q;
                                        w_closed := w_closed w |}]> (watchers s)) s
    | ChannelClosed => w_queue w = [] ∧ w_closed w = true ∧ s' = s
    end.
Proof.
  unfold store_recv. destruct (watchers s !! i) as [w|] eqn:E; [|done].
  destruct (w_queue w) as [|events q] eqn:Q.
  - destruct (w_closed w) eqn:C; [|done]. intros [= <- <-]. eauto.
  - intros [= <- <-]. eauto.
Qed.

Lemma store_ok_recv s i m s' :
  store_ok s → store_recv i s = Some (m, s') →
  store_ok s' ∧ kvs s' = kvs s ∧ next_lease s' = next_lease s
  ∧ leases s' = leases s ∧ ∃ events, m = Response events.
Proof.
  intros [Hr Hc Hn Ho] H. apply store_recv_Some in H as (w & Hw & H).
  destruct m as [events|].
  - destruct H as (q & Hq & ->). split_and!; try done; [|by eauto].
    split; try done. intros j w'. simpl. rewrite lookup_insert.
    case_decide; [intros [= <-]; simpl; eauto | eauto].
  - destruct H as (_ & C & _). rewrite (Ho _ _ Hw) in C. done.
Qed.

Lemma goto_pc l p : pc (goto l p) = l.
Proof. done. Qed.

Lemma goto_leaseID l p : DLock.leaseID (goto l p) = DLock.leaseID p.
Proof. done. Qed.

Lemma goto_same p : goto (pc p) p = p.
Proof. by destruct p. Qed.

(** A caller moves to a point outside the critical section and the
    store's keys stay as they were. *)
Lemma procs_ok_goto s s' P i p l :
  procs_ok s P → P !! i = Some p →
  kvs s' = kvs s → (next_lease s ≤ next_lease s')%Z →
  l ≠ AtCritical →
  (∃ e, l = Fatal e) ∨ DLock.leaseID p ≠ 0%Z →
  procs_ok s' (<[i := goto l p]> P).
Proof.
  intros [Hb Hg Hd Hh] Hp Hk Hn Hl Hf. split.
  - intros j q. rewrite lookup_insert. case_decide.
    + intros [= <-]. simpl. specialize (Hb _ _ Hp). lia.
    + intros Hq. specialize (Hb _ _ Hq). lia.
  - intros j q. rewrite lookup_insert. case_decide; [|by eauto].
    intros [= <-]. simpl. intros E. destruct Hf as [Hf|Hf]; [by right | done].
  - intros j k q r. rewrite !lookup_insert.
    repeat case_decide; subst; try done.
    + intros [= <-] Hr. simpl. intros E1 E2. by eapply (Hd _ _ p r).
    + intros Hq [= <-]. simpl. intros E1 E2. by eapply (Hd _ _ q p).
    + eauto.
  - intros j q. rewrite lookup_insert, Hk. case_decide; [|by eauto].
    by intros [= <-].
Qed.

(** [Grant] hands the caller a lease nobody else has. *)
Lemma procs_ok_grant s P i p ttl :
  store_ok s → procs_ok s P → P !! i = Some p →
  procs_ok {| kvs := kvs s; leases := <[next_lease s := ttl]> (leases s);
              revision := revision s; next_lease := (next_lease s + 1)%Z;
              watchers := watchers s |}
           (<[i := {| pc := AtKeepAlive; DLock.leaseID := next_lease s |}]> P).
Proof.
  intros [_ _ Hn _] [Hb Hg Hd Hh] Hp. split; simpl.
  - intros j q. rewrite lookup_insert. case_decide.
    + intros [= <-]. simpl. lia.
    + intros Hq. specialize (Hb _ _ Hq). lia.
  - intros j q. rewrite lookup_insert. case_decide; [|by eauto].
    intros [= <-]. simpl. lia.
  - intros j k q r. rewrite !lookup_insert.
    repeat case_decide; subst; try done.
    + intros [= <-] Hr. simpl. specialize (Hb _ _ Hr). lia.
    + intros Hq [= <-]. simpl. specialize (Hb _ _ Hq). lia.
    + eauto.
  - intros j q. rewrite lookup_insert. case_decide; [|by eauto].
    by intros [= <-].
Qed.

(** The transaction succeeded: the key was absent, so nobody was in the
    critical section, and now the caller owns the key. *)
Lemma procs_ok_acquire s P i p v :
  procs_ok s P → P !! i = Some p → kvs s !! lockKey = None →
  DLock.leaseID p ≠ 0%Z →
  procs_ok (put_at (revision s + 1) lockKey v (DLock.leaseID p) s)
           (<[i := goto AtCritical p]> P).
Proof.
  intros [Hb Hg Hd Hh] Hp Hk Hf. split.
  - intros j q. rewrite lookup_insert. case_decide.
    + intros [= <-]. simpl. by specialize (Hb _ _ Hp).
    + intros Hq. by specialize (Hb _ _ Hq).
  - intros j q. rewrite lookup_insert. case_decide; [|by eauto].
    by intros [= <-].
  - intros j k q r. rewrite !lookup_insert.
    repeat case_decide; subst; try done.
    + intros [= <-] Hr. simpl. intros E1 E2. by eapply (Hd _ _ p r).
    + intros Hq [= <-]. simpl. intros E1 E2. by eapply (Hd _ _ q p).
    + eauto.
  - intros j q. rewrite lookup_insert. unfold put_at. rewrite kvs_notify. simpl.
    rewrite lookup_insert_eq. case_decide.
    + intros [= <-] _. eauto.
    + intros Hq Hc. destruct (Hh _ _ Hq Hc) as (kv & Hkv & _). congruence.
Qed.

(** The holder leaves: it deletes the key, and it was the only caller in
    the critical section. *)
Lemma procs_ok_release s P i p :
  procs_ok s P → P !! i = Some p → pc p = AtCritical →
  procs_ok (delete_at (revision s + 1) lockKey s).2 (<[i := goto Returned p]> P).
Proof.
  intros HP Hp Hc.
  assert (DLock.leaseID p ≠ 0%Z) as Hf.
  { intros E. destruct (ok_granted _ _ HP _ _ Hp E) as [?|[e ?]]; congruence. }
  destruct (ok_holder _ _ HP _ _ Hp Hc) as (kv & Hkv & Hl).
  destruct HP as [Hb Hg Hd Hh].
  assert (next_lease (delete_at (revision s + 1) lockKey s).2 = next_lease s) as Hn.
  { unfold delete_at. by rewrite Hkv. }
  split.
  - intros j q. rewrite Hn, lookup_insert. case_decide.
    + intros [= <-]. simpl. by specialize (Hb _ _ Hp).
    + intros Hq. by specialize (Hb _ _ Hq).
  - intros j q. rewrite lookup_insert. case_decide; [|by eauto].
    intros [= <-]. simpl. congruence.
  - intros j k q r. rewrite !lookup_insert.
    repeat case_decide; subst; try done.
    + intros [= <-] Hr. simpl. intros E1 E2. by eapply (Hd _ _ p r).
    + intros Hq [= <-]. simpl. intros E1 E2. by eapply (Hd _ _ q p).
    + eauto.
  - intros j q. rewrite lookup_insert. case_decide; [by intros [= <-]|].
    intros Hq Hcq. destruct (Hh _ _ Hq Hcq) as (kv' & Hkv' & Hl').
    exfalso. apply H. eapply (Hd i j p q); congruence.
Qed.

(** The store expires a lease whose owner is not in the critical section. *)
Lemma procs_ok_expire s P l :
  procs_ok s P →
  map_Forall (λ _ p, pc p = AtCritical → DLock.leaseID p ≠ l) P →
  procs_ok (store_expire l s) P.
Proof.
  intros HP Hs. unfold store_expire. destruct (leases s !! l); [|done].
  destruct HP as [Hb Hg Hd Hh]. split; try done.
  - intros i p Hp. rewrite next_lease_drop_lease. eauto.
  - intros i p Hp Hc. destruct (Hh _ _ Hp Hc) as (kv & Hkv & Hl).
    exists kv. split; [|done]. rewrite kvs_drop_lease.
    apply map_lookup_filter_Some. split; [done|].
    unfold bound_to. simpl. rewrite Hl. by apply (Hs i p).
Qed.

Lemma inv_init n : inv (init n).
Proof.
  split; [apply store_ok_init|].
  assert (∀ i p, procs (init n) !! i = Some p → p = proc_init) as Hi.
  { intros i p. simpl. rewrite lookup_map_seq_Some. intros [_ H].
    by apply lookup_replicate in H as [-> _]. }
  split; intros i; intros.
  - by rewrite (Hi i p).
  - left. by rewrite (Hi i p).
  - rewrite (Hi i p) in * by done. done.
  - rewrite (Hi i p) in * by done. done.
Qed.

Lemma granted_at s P i p :
  procs_ok s P → P !! i = Some p →
  pc p ≠ AtGrant → (∀ e, pc p ≠ Fatal e) → DLock.leaseID p ≠ 0%Z.
Proof.
  intros HP Hp H1 H2 E.
  destruct (ok_granted _ _ HP _ _ Hp E) as [?|[e ?]]; [done | by eapply H2].
Qed.

Ltac stays_out :=
  eapply procs_ok_goto; eauto; try lia; try done;
  try (right; eapply granted_at; eauto; congruence).

(** One action of a caller keeps the invariant. *)
Lemma inv_run i fault s P p p' s' :
  inv {| store := s; procs := P |} → P !! i = Some p →
  step i fault p s = Some (p', s') →
  inv {| store := s'; procs := <[i := p']> P |}.
Proof.
  intros [Hs HP] Hp. simpl in *. unfold step.
  destruct (pc p) eqn:Hpc.
  - (* Grant *)
    unfold rpc, store_grant. destruct fault; intros [= <- <-].
    + split; cbn [store procs]; [done | stays_out].
    + split; cbn [store procs]; [|by eapply procs_ok_grant].
      destruct Hs as [Hr Hc Hn Ho]. split; simpl; [done | done | lia | done].
  - (* KeepAlive *)
    unfold rpc, store_keepalive. destruct fault; intros [= <- <-];
      (split; cbn [store procs]; [done | stays_out]).
  - (* the transaction *)
    unfold rpc. destruct fault.
    { intros [= <- <-]. split; cbn [store procs]; [done | stays_out]. }
    rewrite store_txn_lock_txn. case_bool_decide as Hcr.
    + destruct (lease_ok (DLock.leaseID p) s).
      * intros [= <- <-]. cbn [store procs].
        assert (kvs s !! lockKey = None) as Hnone.
        { destruct (kvs s !! lockKey) as [kv|] eqn:E; [|done].
          pose proof (ok_created _ Hs kv E). simpl in Hcr. lia. }
        split; cbn [store procs]; [by apply store_ok_put_at|].
        apply procs_ok_acquire; try done.
        eapply granted_at; eauto; congruence.
      * intros [= <- <-]. split; cbn [store procs]; [done | stays_out].
    + intros [= <- <-]. split; cbn [store procs]; [done | stays_out].
  - (* Watch *)
    intros [= <- <-]. split; cbn [store procs]; [by apply store_ok_watch | stays_out].
  - (* range over the channel *)
    destruct (store_recv i s) as [[m s'']|] eqn:Hrecv; [|done].
    intros [= <- <-].
    destruct (store_ok_recv _ _ _ _ Hs Hrecv) as (Hs' & Hk & Hn & _ & events & ->).
    split; cbn [store procs on_receive]; [done|]. destruct (has_delete events).
    + stays_out.
    + rewrite <- (goto_same p), Hpc. stays_out.
  - (* leaving the critical section *)
    unfold rpc, store_delete. destruct fault.
    + intros [= <- <-]. split; cbn [store procs]; [done | stays_out].
    + destruct (delete_at (revision s + 1) lockKey s) as [n s''] eqn:Hdel.
      intros [= <- <-]. split; cbn [store procs].
      * replace s'' with (delete_at (revision s + 1) lockKey s).2 by by rewrite Hdel.
        by apply store_ok_delete_at.
      * replace s'' with (delete_at (revision s + 1) lockKey s).2 by by rewrite Hdel.
        by apply procs_ok_release.
  - done.
  - done.
Qed.

Lemma inv_sys_step lbl σ σ' :
  inv σ → undisturbed σ lbl = true → sys_step lbl σ = Some σ' → inv σ'.
Proof.
  destruct σ as [s P]. intros Hinv Hu. destruct lbl as [i fault|i|l]; simpl in *.
  - destruct (P !! i) as [p|] eqn:Hp; [|done].
    destruct (step i fault p s) as [[p' s']|] eqn:Hstep; [|done].
    intros [= <-]. by eapply inv_run.
  - done.
  - intros [= <-]. destruct Hinv as [Hs HP]. apply bool_decide_eq_true in Hu.
    split; simpl; [by apply store_ok_expire | by apply procs_ok_expire].
Qed.

Lemma inv_run_quiet sched σ σ' :
  inv σ → quiet sched σ = true → run sched σ = Some σ' → inv σ'.
Proof.
  revert σ. induction sched as [|lbl rest IH]; intros σ Hinv; simpl.
  - by intros _ [= <-].
  - intros Hq. apply andb_true_iff in Hq as [Hu Hq].
    destruct (sys_step lbl σ) as [σ1|] eqn:Hstep; [|done].
    intros Hrun. apply (IH σ1); [by eapply inv_sys_step | done | done].
Qed.


(** * The lock: what the callers can and cannot rely on *)




Lemma revisions_ok_put_at s k v l :
  revisions_ok s → revisions_ok (put_at (revision s + 1) k v l s).
Proof.
  intros [Hr Hc]. split; [simpl; lia|].
  intros k' kv. unfold put_at. rewrite kvs_notify. simpl.
  rewrite lookup_insert. case_decide; [|by eauto].
  intros [= <-]. simpl. destruct (kvs s !! k) eqn:E; [eauto | lia].
Qed.

Lemma revisions_ok_delete_at s k :
  revisions_ok s → revisions_ok (delete_at (revision s + 1) k s).2.
Proof.
  intros [Hr Hc]. unfold delete_at. destruct (kvs s !! k) eqn:E; [|done].
  split; [simpl; lia|]. intros k' kv. simpl. intros H.
  apply lookup_delete_Some in H as [_ H]. eauto.
Qed.

Lemma revisions_ok_expire s l : revisions_ok s → revisions_ok (store_expire l s).
Proof.
  intros [Hr Hc]. unfold store_expire. destruct (leases s !! l); [|done]. split.
  - pose proof (revision_drop_lease l s). lia.
  - intros k kv. rewrite kvs_drop_lease. intros H.
    apply map_lookup_filter_Some in H as [H _]. eauto.
Qed.

Lemma revisions_ok_step i fault p s p' s' :
  revisions_ok s → step i fault p s = Some (p', s') → revisions_ok s'.
Proof.
  intros Hs. unfold step, rpc. destruct (pc p).
  - destruct fault; intros [= <- <-]; done.
  - destruct fault; intros [= <- <-]; done.
  - destruct fault; [by intros [= <- <-]|].
    rewrite store_txn_lock_txn. case_bool_decide; [|by intros [= <- <-]].
    destruct (lease_ok _ _); intros [= <- <-]; [|done].
    by apply revisions_ok_put_at.
  - by intros [= <- <-].
  - destruct (store_recv i s) as [[m s1]|] eqn:E; [|done]. intros [= <- <-].
    apply store_recv_Some in E as (w & _ & E). destruct m.
    + by destruct E as (q & _ & ->).
    + by destruct E as (_ & _ & ->).
  - destruct fault; [by intros [= <- <-]|]. unfold store_delete.
    destruct (delete_at _ _ _) as [n s1] eqn:E. intros [= <- <-].
    replace s1 with (delete_at (revision s + 1) lockKey s).2 by by rewrite E.
    by apply revisions_ok_delete_at.
  - done.
  - done.
Qed.

(** It holds in every state any execution can reach. *)
Lemma revisions_ok_run sched n σ :
  run sched (init n) = Some σ → revisions_ok (store σ).
Proof.
  assert (∀ sched σ0 σ, revisions_ok (store σ0) → run sched σ0 = Some σ →
                        revisions_ok (store σ)) as H.
  { clear. induction sched as [|lbl rest IH]; intros σ0 σ H0; simpl.
    - by intros [= <-].
    - destruct (sys_step lbl σ0) as [σ1|] eqn:E; [|done]. apply IH.
      destruct lbl as [i fault|i|l]; simpl in E.
      + destruct (procs σ0 !! i) as [p|]; [|done].
        destruct (step i fault p (store σ0)) as [[p' s']|] eqn:E'; [|done].
        injection E as <-. simpl. by eapply revisions_ok_step.
      + injection E as <-. done.
      + injection E as <-. by apply revisions_ok_expire. }
  apply H. split; simpl; [lia|]. intros k kv. by rewrite lookup_empty.
Qed.

(** C2: an acquisition attempt is one call, the commit of the
    transaction "if CreateRevision(lockKey) = 0 then put lockKey bound to
    my lease".  It reports success exactly when the key was absent; in
    that case the caller is in the critical section as soon as the call
    returns, and the store is as that one transaction left it, with the
    key bound to the caller's lease. *)
Theorem lock_attempt_is_one_transaction i fault p s p' s' :
  revisions_ok s →
  pc p = AtTxn →
  step i fault p s = Some (p', s') →
  ∃ r,
    rpc fault
        (store_txn {| If := [Compare (CreateRevision lockKey) CmpEq 0%Z];
                      Then := [OpPut lockKey "locked" (DLock.leaseID p)];
                      Else := [] |}) s = (r, s')
    ∧ match r with
      | Ok txnResp =>
          if Succeeded txnResp
          then kvs s !! lockKey = None
               ∧ pc p' = AtCritical
               ∧ kvs s' = <[lockKey := mkKeyValue "locked" (revision s + 1)
                                         (revision s + 1) (DLock.leaseID p)]> (kvs s)
          else is_Some (kvs s !! lockKey) ∧ pc p' = AtWatch ∧ s' = s
      | Err e => pc p' = Fatal e ∧ s' = s
      end.
Proof.
  intros [_ Hs] Hpc. unfold step. rewrite Hpc.
  change {| If := _; Then := _; Else := _ |} with (lock_txn (DLock.leaseID p)).
  destruct (rpc fault (store_txn (lock_txn (DLock.leaseID p))) s) as [r s1] eqn:Hr.
  intros [= <- <-]. exists r. split; [done|].
  unfold rpc in Hr. destruct fault; [by simplify_eq|].
  rewrite store_txn_lock_txn in Hr. case_bool_decide as Hcr.
  - assert (kvs s !! lockKey = None) as Hnone.
    { destruct (kvs s !! lockKey) as [kv|] eqn:E; [|done].
      pose proof (Hs _ kv E) as Hpos. simpl in Hpos, Hcr. lia. }
    destruct (lease_ok (DLock.leaseID p) s); simplify_eq; simpl; [|done].
    split_and!; try done. by rewrite Hnone.
  - injection Hr as <- <-. simpl. split_and!; try done.
    destruct (kvs s !! lockKey); [by eexists | done].
Qed.

Lemma lock_attempt_is_one_transaction_witness :
  revisions_ok store_one_lease
  ∧ pc (mkProc AtTxn 1) = AtTxn
  ∧ step 0 false (mkProc AtTxn 1) store_one_lease
    = Some (mkProc AtCritical 1, put_at 2 lockKey "locked" 1 store_one_lease)
  ∧ ∃ r,
      rpc false
          (store_txn {| If := [Compare (CreateRevision lockKey) CmpEq 0%Z];
                        Then := [OpPut lockKey "locked" 1%Z];
                        Else := [] |}) store_one_lease
      = (r, put_at 2 lockKey "locked" 1 store_one_lease)
      ∧ match r with
        | Ok txnResp =>
            if Succeeded txnResp
            then kvs store_one_lease !! lockKey = None
                 ∧ pc (mkProc AtCritical 1) = AtCritical
                 ∧ kvs (put_at 2 lockKey "locked" 1 store_one_lease)
                   = <[lockKey := mkKeyValue "locked" (1 + 1) (1 + 1) 1]> ∅
            else is_Some (kvs store_one_lease !! lockKey)
                 ∧ pc (mkProc AtCritical 1) = AtWatch
                 ∧ put_at 2 lockKey "locked" 1 store_one_lease = store_one_lease
        | Err e => pc (mkProc AtCritical 1) = Fatal e
                   ∧ put_at 2 lockKey "locked" 1 store_one_lease = store_one_lease
        end.
Proof.
  assert (revisions_ok store_one_lease) as H1.
  { split; simpl; [lia|]. intros k kv. rewrite lookup_empty. discriminate. }
  assert (pc (mkProc AtTxn 1) = AtTxn) as H2 by reflexivity.
  assert (step 0 false (mkProc AtTxn 1) store_one_lease
          = Some (mkProc AtCritical 1, put_at 2 lockKey "locked" 1 store_one_lease)) as H3
    by (vm_compute; reflexivity).
  exact (conj H1 (conj H2 (conj H3
    (lock_attempt_is_one_transaction 0 false _ _ _ _ H1 H2 H3)))).
Defined.

(** A waiter whose channel holds a batch with a Delete event gets back to
    [getlock] by reading the channel up to that batch. *)
Lemma waiter_drains q : ∀ σ j p w,
  procs σ !! j = Some p → pc p = AtRange →
  watchers (store σ) !! j = Some w → w_queue w = q →
  Exists (λ events, has_delete events = true) q →
  ∃ k σ', run (replicate k (Run j false)) σ = Some σ' ∧ pc_of σ' j = Some AtTxn.
Proof.
  induction q as [|events q IH]; intros σ j p w Hp Hpc Hw Hq Hex.
  { by apply Exists_nil in Hex. }
  assert (store_recv j (store σ)
          = Some (Response events,
                  with_watchers (<[j := {| w_key := w_key w; w_queue := q;
                                           w_closed := w_closed w |}]>
                                   (watchers (store σ))) (store σ))) as Hrecv.
  { unfold store_recv. by rewrite Hw, Hq. }
  destruct (has_delete events) eqn:Hdel.
  - exists 1, {| store := with_watchers (<[j := {| w_key := w_key w; w_queue := q;
                                                    w_closed := w_closed w |}]>
                                            (watchers (store σ))) (store σ);
                 procs := <[j := goto AtTxn p]> (procs σ) |}.
    split.
    + simpl. rewrite Hp. unfold step. rewrite Hpc, Hrecv. simpl. by rewrite Hdel.
    + unfold pc_of. simpl. by rewrite lookup_insert_eq.
  - apply Exists_cons in Hex as [Hex|Hex]; [congruence|].
    destruct (IH {| store := with_watchers (<[j := {| w_key := w_key w; w_queue := q;
                                                       w_closed := w_closed w |}]>
                                               (watchers (store σ))) (store σ);
                    procs := <[j := p]> (procs σ) |} j p
                 {| w_key := w_key w; w_queue := q; w_closed := w_closed w |})
      as (k & σ' & Hrun & Hpc'); try done.
    { simpl. by rewrite lookup_insert_eq. }
    { simpl. by rewrite lookup_insert_eq. }
    exists (S k), σ'. split; [|done].
    simpl. rewrite Hp. unfold step. rewrite Hpc, Hrecv. simpl. by rewrite Hdel.
Qed.

(** The loop over [w.Events] in terms of the events themselves. *)
Lemma has_delete_Exists events :
  has_delete events = true ↔ Exists (λ ev, Type_ ev = DELETE) events.
Proof.
  induction events as [|ev rest IH]; simpl.
  - split; [done | intros H; by apply Exists_nil in H].
  - case_decide as Hd.
    + split; [intros _; by apply Exists_cons_hd | done].
    + rewrite IH. split; [apply Exists_cons_tl|].
      intros H. apply Exists_cons in H as [H|H]; done.
Qed.

Lemma run_nil σ : run [] σ = Some σ.
Proof. reflexivity. Qed.

Lemma run_cons lbl rest σ :
  run (lbl :: rest) σ
  = match sys_step lbl σ with Some σ' => run rest σ' | None => None end.
Proof. reflexivity. Qed.

(** C3, as stated, fails: the Delete of an Unlock does not reach every
    caller whose transaction has failed.  Caller 1 has failed its
    transaction and has not opened its watch yet when caller 0 unlocks;
    its watch then starts after the Delete, and reading it never brings
    caller 1 back to the transaction. *)
Lemma unlock_does_not_wake_every_contender :
  ¬ (∀ n sched σ h σ',
       run sched (init n) = Some σ →
       pc_of σ h = Some AtCritical →
       is_Some (kvs (store σ) !! lockKey) →
       sys_step (Run h false) σ = Some σ' →
       ∀ j, contending σ j →
         ∃ k σ'', run (replicate k (Run j false)) σ' = Some σ''
                  ∧ pc_of σ'' j = Some AtTxn).
Proof.
  intros H.
  assert (run (take 6 sched_contended) (init 2)
          = Some (after (take 6 sched_contended) 2)) as H1
    by (vm_compute; reflexivity).
  assert (pc_of (after (take 6 sched_contended) 2) 0 = Some AtCritical) as H2
    by (vm_compute; reflexivity).
  assert (is_Some (kvs (store (after (take 6 sched_contended) 2)) !! lockKey)) as H3
    by (vm_compute; eexists; reflexivity).
  assert (sys_step (Run 0 false) (after (take 6 sched_contended) 2)
          = Some (after (take 6 sched_contended ++ [Run 0 false]) 2)) as H4
    by (vm_compute; reflexivity).
  assert (contending (after (take 6 sched_contended) 2) 1) as H5
    by (left; vm_compute; reflexivity).
  assert (pc_of (after (take 6 sched_contended ++ [Run 0 false]) 2) 1
          = Some AtWatch) as E0 by (vm_compute; reflexivity).
  assert (sys_step (Run 1 false) (after (take 6 sched_contended ++ [Run 0 false]) 2)
          = Some (after (take 6 sched_contended ++ [Run 0 false; Run 1 false]) 2))
    as E1 by (vm_compute; reflexivity).
  assert (pc_of (after (take 6 sched_contended ++ [Run 0 false; Run 1 false]) 2) 1
          = Some AtRange) as E2 by (vm_compute; reflexivity).
  assert (sys_step (Run 1 false)
            (after (take 6 sched_contended ++ [Run 0 false; Run 1 false]) 2) = None)
    as E3 by (vm_compute; reflexivity).
  destruct (H 2 _ _ 0 _ H1 H2 H3 H4 1 H5) as (k & σ'' & Hrun & Hpc).
  destruct k as [|[|k]]; cbn [replicate] in Hrun.
  - rewrite run_nil in Hrun. apply (inj Some) in Hrun. rewrite <- Hrun in Hpc.
    rewrite E0 in Hpc. discriminate Hpc.
  - rewrite run_cons, E1, run_nil in Hrun. apply (inj Some) in Hrun.
    rewrite <- Hrun in Hpc. rewrite E2 in Hpc. discriminate Hpc.
  - rewrite run_cons, E1, run_cons, E3 in Hrun. discriminate Hrun.
Qed.

(** C3 (amended): while the lock key exists, (1) a caller's transaction
    fails, and the caller then opens a watch on the lock key and blocks
    on it; (2) a waiter that reads a batch of events goes back to the
    transaction when some event of the batch is a Delete, and keeps
    waiting when none is; (3) a waiter with nothing to read is blocked;
    (4) the Unlock of the caller in the critical section deletes the key
    directly, and every caller whose watch on the key is open at that
    moment then finds a Delete event in its channel and retries. *)
Theorem contention_watch_retry σ :
  revisions_ok (store σ) →
  is_Some (kvs (store σ) !! lockKey) →
  (∀ j pj, procs σ !! j = Some pj → pc pj = AtTxn →
     ∃ σ1 σ2,
       sys_step (Run j false) σ = Some σ1
       ∧ store σ1 = store σ ∧ pc_of σ1 j = Some AtWatch
       ∧ sys_step (Run j false) σ1 = Some σ2
       ∧ waiter σ2 j ∧ kvs (store σ2) = kvs (store σ)
       ∧ sys_step (Run j false) σ2 = None)
  ∧ (∀ j w events q fault,
       waiter σ j → watchers (store σ) !! j = Some w → w_queue w = events :: q →
       ∃ σ1, sys_step (Run j fault) σ = Some σ1
             ∧ ((∃ ev, ev ∈ events ∧ Type_ ev = DELETE) → pc_of σ1 j = Some AtTxn)
             ∧ ((∀ ev, ev ∈ events → Type_ ev ≠ DELETE) → pc_of σ1 j = Some AtRange))
  ∧ (∀ j w fault,
       waiter σ j → watchers (store σ) !! j = Some w → w_queue w = [] →
       sys_step (Run j fault) σ = None)
  ∧ (∀ h ph, procs σ !! h = Some ph → pc ph = AtCritical →
       ∃ σ', sys_step (Run h false) σ = Some σ'
             ∧ kvs (store σ') = delete lockKey (kvs (store σ))
             ∧ pc_of σ' h = Some Returned
             ∧ ∀ j, waiter σ j →
                 ∃ k σ'', run (replicate k (Run j false)) σ' = Some σ''
                          ∧ pc_of σ'' j = Some AtTxn).
Proof.
  destruct σ as [s P]. simpl. intros [_ Hrev] [kv Hkv]. split_and!.
  - intros j pj Hj Hcj.
    assert (step j false pj s = Some (goto AtWatch pj, s)) as Hstep.
    { unfold step, rpc. rewrite Hcj, store_txn_lock_txn, Hkv. simpl.
      pose proof (Hrev _ _ Hkv) as Hpos. simpl in Hpos.
      rewrite bool_decide_eq_false_2 by lia. done. }
    eexists _, _. rewrite Hj, Hstep. split; [done|]. simpl.
    split; [done|]. split; [unfold pc_of; simpl; by rewrite lookup_insert_eq|].
    rewrite lookup_insert_eq. unfold step at 1. simpl. split; [done|].
    split_and!.
    + split.
      * eexists. simpl. rewrite lookup_insert_eq. done.
      * eexists. simpl. rewrite lookup_insert_eq. done.
    + done.
    + cbn [procs store]. rewrite lookup_insert_eq. unfold step, store_recv. simpl.
      by rewrite lookup_insert_eq.
  - intros j w events q fault [(pj & Hj & Hcj) _] Hw Hq. simpl in *.
    rewrite Hj. unfold step. rewrite Hcj. unfold store_recv. rewrite Hw, Hq.
    eexists. split; [done|]. unfold pc_of. simpl. rewrite lookup_insert_eq.
    simpl. split.
    + intros Hex. apply Exists_exists, has_delete_Exists in Hex.
      by rewrite Hex.
    + intros Hall. destruct (has_delete events) eqn:Hd.
      * apply has_delete_Exists, Exists_exists in Hd as (ev & Hin & Ht).
        by destruct (Hall ev Hin).
      * simpl. by rewrite Hcj.
  - intros j w fault [(pj & Hj & Hcj) (w' & Hw' & _ & Hopen)] Hw Hq. simpl in *.
    rewrite Hj. unfold step. rewrite Hcj. unfold store_recv. rewrite Hw, Hq.
    simplify_eq. by rewrite Hopen.
  - intros h ph Hh Hch.
    rewrite Hh. unfold step, rpc, store_delete, delete_at. rewrite Hch, Hkv.
    eexists. split; [done|]. simpl. split; [done|].
    split; [unfold pc_of; simpl; by rewrite lookup_insert_eq|].
    intros j [(pj & Hj & Hcj) (w & Hw & Hwk & Hopen)]. simpl in *.
    assert (j ≠ h) as Hne by (intros ->; congruence).
    eapply (waiter_drains _ _ j pj (deliver (mkEvent DELETE lockKey) w)).
    + simpl. by rewrite lookup_insert_ne.
    + done.
    + simpl. by rewrite lookup_fmap, Hw.
    + unfold deliver. rewrite Hopen. simpl. rewrite decide_True by done. done.
    + apply Exists_app. right. by apply Exists_cons_hd.
Qed.

Lemma contention_watch_retry_witness :
  revisions_ok (store (after sched_contended 2))
  ∧ is_Some (kvs (store (after sched_contended 2)) !! lockKey)
  ∧ (∀ j w events q fault,
       waiter (after sched_contended 2) j →
       watchers (store (after sched_contended 2)) !! j = Some w →
       w_queue w = events :: q →
       ∃ σ1, sys_step (Run j fault) (after sched_contended 2) = Some σ1
             ∧ ((∃ ev, ev ∈ events ∧ Type_ ev = DELETE) → pc_of σ1 j = Some AtTxn)
             ∧ ((∀ ev, ev ∈ events → Type_ ev ≠ DELETE) → pc_of σ1 j = Some AtRange))
  ∧ ∀ h ph, procs (after sched_contended 2) !! h = Some ph → pc ph = AtCritical →
      ∃ σ', sys_step (Run h false) (after sched_contended 2) = Some σ'
            ∧ kvs (store σ') = delete lockKey (kvs (store (after sched_contended 2)))
            ∧ pc_of σ' h = Some Returned
            ∧ ∀ j, waiter (after sched_contended 2) j →
                ∃ k σ'', run (replicate k (Run j false)) σ' = Some σ''
                         ∧ pc_of σ'' j = Some AtTxn.
Proof.
  assert (revisions_ok (store (after sched_contended 2))) as H1.
  { split; [vm_compute; discriminate|].
    apply (bool_decide_unpack _). vm_compute. exact I. }
  assert (is_Some (kvs (store (after sched_contended 2)) !! lockKey)) as H2
    by (vm_compute; eexists; reflexivity).
  exact (conj H1 (conj H2
    (conj (proj1 (proj2 (contention_watch_retry _ H1 H2)))
          (proj2 (proj2 (proj2 (contention_watch_retry _ H1 H2))))))).
Defined.

(** C4 (the code at the failing input): when the channel of a waiting
    caller is closed, [range] ends and the caller walks into the critical
    section, with no error, while the holder is still inside and the key
    is still bound to the holder's lease; on its way out it deletes the
    holder's key. *)
Theorem watch_closed_enters_critical_section :
  (∀ p, pc (on_receive ChannelClosed p) = AtCritical)
  ∧ pc_of (after sched_watch_closed 2) 0 = Some AtCritical
  ∧ pc_of (after sched_watch_closed 2) 1 = Some AtRange
  ∧ Lease <$> kvs (store (after sched_watch_closed 2)) !! lockKey = Some 1%Z
  ∧ (DLock.leaseID <$> procs (after sched_watch_closed 2) !! 0) = Some 1%Z
  ∧ ∃ σ1 σ2,
      sys_step (Run 1 false) (after sched_watch_closed 2) = Some σ1
      ∧ pc_of σ1 1 = Some AtCritical
      ∧ Held σ1 0 ∧ Held σ1 1
      ∧ Lease <$> kvs (store σ1) !! lockKey = Some 1%Z
      ∧ sys_step (Run 1 false) σ1 = Some σ2
      ∧ pc_of σ2 1 = Some Returned
      ∧ pc_of σ2 0 = Some AtCritical
      ∧ kvs (store σ2) !! lockKey = None.
Proof.
  split; [done|]. split_and!; try (vm_compute; reflexivity).
  eexists (after (sched_watch_closed ++ [Run 1 false]) 2),
          (after (sched_watch_closed ++ [Run 1 false; Run 1 false]) 2).
  split_and!; vm_compute; reflexivity.
Qed.

(** C5, as stated, fails: a caller whose lease is dead does not fail
    fast.  While the key exists its transaction just reports "not
    succeeded", and it goes on to watch and wait. *)
Lemma dead_lease_not_rejected :
  ¬ (∀ n sched σ i p,
       run sched (init n) = Some σ →
       procs σ !! i = Some p → pc p = AtTxn →
       leases (store σ) !! DLock.leaseID p = None →
       ∃ σ' e, sys_step (Run i false) σ = Some σ' ∧ pc_of σ' i = Some (Fatal e)).
Proof.
  intros H.
  assert (run sched_dead_lease (init 2) = Some (after sched_dead_lease 2)) as H1
    by (vm_compute; reflexivity).
  assert (procs (after sched_dead_lease 2) !! 1 = Some (mkProc AtTxn 2)) as H2
    by (vm_compute; reflexivity).
  assert (leases (store (after sched_dead_lease 2))
            !! DLock.leaseID (mkProc AtTxn 2) = None) as H3
    by (vm_compute; reflexivity).
  assert (sys_step (Run 1 false) (after sched_dead_lease 2)
          = Some (after (sched_dead_lease ++ [Run 1 false]) 2)) as E1
    by (vm_compute; reflexivity).
  assert (pc_of (after (sched_dead_lease ++ [Run 1 false]) 2) 1 = Some AtWatch) as E2
    by (vm_compute; reflexivity).
  destruct (H 2 _ _ 1 _ H1 H2 eq_refl H3) as (σ' & e & Hstep & Hpc).
  rewrite E1 in Hstep. apply (inj Some) in Hstep. rewrite <- Hstep in Hpc.
  rewrite E2 in Hpc. discriminate Hpc.
Qed.

(** * Registration and discovery *)

Lemma prefix_app s : ∀ a b,
  String.prefix s a = true → String.prefix s (a +:+ b) = true.
Proof.
  induction s as [|c s IH]; intros a b.
  - intros _. by destruct (a +:+ b).
  - destruct a as [|c' a]; simpl; [done|].
    destruct (Ascii.ascii_dec c c'); [apply IH | done].
Qed.

Lemma prefix_refl s : String.prefix s s = true.
Proof.
  induction s as [|c s IH]; simpl; [done|].
  by destruct (Ascii.ascii_dec c c).
Qed.

Lemma append_inj_r a b c : a +:+ b = a +:+ c → b = c.
Proof. induction a as [|x a IH]; simpl; [done|]. intros [= H]. by apply IH. Qed.

Lemma lease_ok_granted ttl s : lease_ok (next_lease s) (granted ttl s) = true.
Proof.
  unfold lease_ok, granted. simpl. rewrite lookup_insert_eq.
  rewrite (bool_decide_eq_true_2 (is_Some _)) by by eexists.
  by rewrite orb_true_r.
Qed.

(** [Registry], call by call: which of the three remote calls fails
    decides where the function returns. *)
Lemma Registry_unfold `{Service T} (service : T) u r w :
  closed (client r) = false →
  Registry service u r w =
    let id := next_lease (etcd w) in
    let s1 := granted (leaseTTL r) (etcd w) in
    let s2 := put_at (revision s1 + 1) (Name service +:+ "-" +:+ u)
                     (Addr service) id s1 in
    let fs := faults w in
    if hd false fs
    then (Some ErrUnavailable, r, {| etcd := etcd w; faults := tl fs |})
    else if hd false (tl fs)
    then (Some ErrUnavailable, with_lease id r,
          {| etcd := s1; faults := tl (tl fs) |})
    else if hd false (tl (tl fs))
    then (Some ErrUnavailable, with_lease id r,
          {| etcd := s2; faults := tl (tl (tl fs)) |})
    else (None,
          {| client := client r; ServiceRegistry.leaseID := id;
             leaseTTL := leaseTTL r; leaseKeepAliveRespCh := Some id |},
          {| etcd := s2; faults := tl (tl (tl fs)) |}).
Proof.
  intros Hc. unfold Registry, bind, call, ret, rpc. simpl. rewrite Hc.
  destruct (hd false (faults w)); [done|]. simpl.
  destruct (hd false (tl (faults w))); [done|].
  unfold store_put. fold (granted (leaseTTL r) (etcd w)).
  rewrite lease_ok_granted. simpl.
  destruct (hd false (tl (tl (faults w)))); done.
Qed.

(** C6, as stated, fails: when the put fails after the grant succeeded,
    [Registry] returns the error at once.  No revoke is issued: lease 1
    stays alive and no record is bound to it. *)
Lemma Registry_leaks_lease :
  ¬ (∀ (service : OrderService) u r w err r' w',
       closed (client r) = false →
       Registry service u r w = (Some err, r', w') →
       ∀ l, is_Some (leases (etcd w') !! l) → leases (etcd w) !! l = None →
            ∃ k kv, kvs (etcd w') !! k = Some kv ∧ Lease kv = l).
Proof.
  intros H.
  assert (Registry (mkOrderService "svc" "host:1") "u1"
                   (NewEtcdRegistry LeaseTTL) world_put_fails
          = (Some ErrUnavailable, with_lease 1 (NewEtcdRegistry LeaseTTL),
             {| etcd := granted LeaseTTL store_init; faults := [] |})) as E
    by (vm_compute; reflexivity).
  destruct (H _ _ (NewEtcdRegistry LeaseTTL) _ _ _ _ eq_refl E 1%Z) as (k & kv & Hk & _).
  - simpl. rewrite lookup_insert_eq. by eexists.
  - done.
  - simpl in Hk. by rewrite lookup_empty in Hk.
Qed.

Lemma leases_cover_granted ttl s : leases_cover s → leases_cover (granted ttl s).
Proof.
  intros Hs k kv Hk. simpl in *. destruct (Hs k kv Hk) as [?|[t Ht]]; [by left|].
  right. rewrite lookup_insert. case_decide; by eexists.
Qed.

Lemma leases_cover_put_at rev k v l s :
  leases_cover s → is_Some (leases s !! l) → leases_cover (put_at rev k v l s).
Proof.
  intros Hs Hl k' kv. unfold put_at. rewrite kvs_notify, leases_notify. simpl.
  rewrite lookup_insert. case_decide; [|by apply Hs].
  intros [= <-]. simpl. by right.
Qed.

(** C6 (amended): [Registry] is failure-atomic as far as records go.  If
    the grant fails the store is untouched.  If the put fails after the
    grant succeeded, the error is returned with no record written, and
    no revoke: the lease just granted stays alive.  In every failure
    case, no record is left bound to a lease that is not alive. *)
Theorem Registry_failure `{Service T} (service : T) u r w err r' w' :
  closed (client r) = false →
  leases_cover (etcd w) →
  Registry service u r w = (Some err, r', w') →
  (hd false (faults w) = true → etcd w' = etcd w)
  ∧ (hd false (faults w) = false → hd false (tl (faults w)) = true →
       kvs (etcd w') = kvs (etcd w)
       ∧ ServiceRegistry.leaseID r' = next_lease (etcd w)
       ∧ leases (etcd w')
         = <[ServiceRegistry.leaseID r' := leaseTTL r]> (leases (etcd w)))
  ∧ leases_cover (etcd w').
Proof.
  intros Hc Hcov. rewrite Registry_unfold by done. cbv zeta.
  destruct (hd false (faults w)).
  { intros [= <- <- <-]. simpl. split_and!; done. }
  destruct (hd false (tl (faults w))).
  { intros [= <- <- <-]. simpl. split_and!; try done.
    by apply leases_cover_granted. }
  destruct (hd false (tl (tl (faults w)))); [|done].
  intros [= <- <- <-]. cbn [etcd]. split_and!; try done.
  apply leases_cover_put_at; [by apply leases_cover_granted|].
  simpl. rewrite lookup_insert_eq. by eexists.
Qed.

Lemma Registry_failure_witness :
  closed (client (NewEtcdRegistry LeaseTTL)) = false
  ∧ leases_cover (etcd world_put_fails)
  ∧ Registry (mkOrderService "svc" "host:1") "u1"
             (NewEtcdRegistry LeaseTTL) world_put_fails
    = (Some ErrUnavailable, with_lease 1 (NewEtcdRegistry LeaseTTL),
       {| etcd := granted LeaseTTL store_init; faults := [] |})
  ∧ (hd false (faults world_put_fails) = true →
       granted LeaseTTL store_init = etcd world_put_fails)
  ∧ (hd false (faults world_put_fails) = false →
     hd false (tl (faults world_put_fails)) = true →
       kvs (granted LeaseTTL store_init) = kvs (etcd world_put_fails)
       ∧ ServiceRegistry.leaseID (with_lease 1 (NewEtcdRegistry LeaseTTL))
         = next_lease (etcd world_put_fails)
       ∧ leases (granted LeaseTTL store_init)
         = <[ServiceRegistry.leaseID (with_lease 1 (NewEtcdRegistry LeaseTTL))
             := leaseTTL (NewEtcdRegistry LeaseTTL)]> (leases (etcd world_put_fails)))
  ∧ leases_cover (granted LeaseTTL store_init).
Proof.
  assert (closed (client (NewEtcdRegistry LeaseTTL)) = false) as H1 by reflexivity.
  assert (leases_cover (etcd world_put_fails)) as H2.
  { intros k kv. simpl. rewrite lookup_empty. discriminate. }
  assert (Registry (mkOrderService "svc" "host:1") "u1"
                   (NewEtcdRegistry LeaseTTL) world_put_fails
          = (Some ErrUnavailable, with_lease 1 (NewEtcdRegistry LeaseTTL),
             {| etcd := granted LeaseTTL store_init; faults := [] |})) as H3
    by (vm_compute; reflexivity).
  exact (conj H1 (conj H2 (conj H3
    (Registry_failure (mkOrderService "svc" "host:1") "u1" _ _ _ _ _ H1 H2 H3)))).
Defined.

(** [DeRegistry] revokes the lease in [r.leaseID], and that one only. *)
Lemma DeRegistry_revokes_current r w r' w' :
  closed (client r) = false →
  DeRegistry r w = (None, r', w') →
  kvs (etcd w') = filter (λ p, ¬ bound_to (ServiceRegistry.leaseID r) p) (kvs (etcd w))
  ∧ leases (etcd w') = delete (ServiceRegistry.leaseID r) (leases (etcd w))
  ∧ closed (client r') = true.
Proof.
  intros Hc. unfold DeRegistry, bind, call, ret, rpc, Close, store_revoke.
  rewrite Hc. destruct (hd false (faults w)); [done|].
  destruct (leases (etcd w) !! ServiceRegistry.leaseID r); [|done]. simpl.
  destruct (hd false (tl (faults w))); [done|]. intros [= <- <-]. simpl.
  by rewrite kvs_drop_lease, leases_drop_lease.
Qed.

(** C7 (the code at the failing input): after two registrations,
    [r.leaseID] holds the second lease only.  [DeRegistry] succeeds and
    closes the client, but the first record is still in the store, bound
    to its live lease, and resolving "svc" returns the process's own
    first instance instead of failing.  With a single registration the
    record is gone and resolving fails with "service not found". *)
Theorem DeRegistry_leaves_earlier_records :
  registered_once.1.1 = None
  ∧ registered_twice.1.1 = None
  ∧ deregistered.1.1 = None
  ∧ closed (client deregistered.1.2) = true
  ∧ Value <$> kvs (etcd deregistered.2) !! "svc-a"%string = Some "host:1"%string
  ∧ Lease <$> kvs (etcd deregistered.2) !! "svc-a"%string = Some 1%Z
  ∧ leases (etcd deregistered.2) !! 1%Z = Some LeaseTTL
  ∧ kvs (etcd deregistered.2) !! "svc-b"%string = None
  ∧ leases (etcd deregistered.2) !! 2%Z = None
  ∧ (GetServiceAddr resolver "svc" 0 deregistered.2).1 = ("host:1"%string, None)
  ∧ deregistered_single.1.1 = None
  ∧ (GetServiceAddr resolver "svc" 0 deregistered_single.2).1
    = (""%string, Some ErrServiceNotFound).
Proof. split_and!; vm_compute; reflexivity. Qed.

(** The records a prefix read returns. *)
Lemma elem_of_prefix_read name s k kv :
  (k, kv) ∈ map_to_list (filter (has_prefix name) (kvs s))
  ↔ kvs s !! k = Some kv ∧ String.prefix name k = true.
Proof. by rewrite elem_of_map_to_list, map_lookup_filter_Some. Qed.

(** [GetServiceAddr] when the read is performed. *)
Lemma GetServiceAddr_read d name draw w :
  closed (d_client d) = false →
  hd false (faults w) = false →
  let Kvs := map_to_list (filter (has_prefix name) (kvs (etcd w))) in
  (GetServiceAddr d name draw w).1 =
    if decide (List.length Kvs = 0) then (""%string, Some ErrServiceNotFound)
    else (from_option (λ kv, Value kv.2) ""%string
                      (Kvs !! Intn draw (List.length Kvs)), None).
Proof.
  intros Hc Hf Kvs. unfold GetServiceAddr, bind, call, ret, rpc, store_get_prefix.
  rewrite Hc, Hf. simpl. fold Kvs. by case_decide.
Qed.

(** Every record read is the answer for the draw equal to its index. *)
Lemma GetServiceAddr_selectable d name w k kv :
  closed (d_client d) = false →
  hd false (faults w) = false →
  let Kvs := map_to_list (filter (has_prefix name) (kvs (etcd w))) in
  (k, kv) ∈ Kvs →
  ∃ i, i < List.length Kvs ∧ Intn i (List.length Kvs) = i
       ∧ (GetServiceAddr d name i w).1 = (Value kv, None).
Proof.
  intros Hc Hf Kvs Hin. apply list_elem_of_lookup in Hin as [i Hi].
  pose proof (lookup_lt_Some _ _ _ Hi) as Hlt.
  assert (Intn i (List.length Kvs) = i) as Hi' by (by apply Nat.mod_small).
  exists i. split_and!; try done.
  rewrite GetServiceAddr_read by done. fold Kvs.
  rewrite decide_False by lia. by rewrite Hi', Hi.
Qed.

(** C8: with the read performed, [GetServiceAddr] reads exactly the
    records whose key starts with [name]; it fails with "service not
    found" exactly when there are none; otherwise it returns the stored
    address of the record at index [rand.Intn(len)], an index within
    range, and every record read is the answer for the draw equal to its
    index. *)
Theorem GetServiceAddr_spec d name draw w :
  closed (d_client d) = false →
  hd false (faults w) = false →
  let Kvs := map_to_list (filter (has_prefix name) (kvs (etcd w))) in
  (∀ k kv, (k, kv) ∈ Kvs ↔ kvs (etcd w) !! k = Some kv ∧ String.prefix name k = true)
  ∧ ((GetServiceAddr d name draw w).1.2 = Some ErrServiceNotFound ↔ Kvs = [])
  ∧ (Kvs ≠ [] →
       Intn draw (List.length Kvs) < List.length Kvs
       ∧ ∃ k kv, Kvs !! Intn draw (List.length Kvs) = Some (k, kv)
                 ∧ (GetServiceAddr d name draw w).1 = (Value kv, None))
  ∧ (∀ k kv, (k, kv) ∈ Kvs →
       ∃ i, i < List.length Kvs ∧ Intn i (List.length Kvs) = i
            ∧ (GetServiceAddr d name i w).1 = (Value kv, None)).
Proof.
  intros Hc Hf Kvs.
  pose proof (GetServiceAddr_read d name draw w Hc Hf) as Hres.
  cbv zeta in Hres. fold Kvs in Hres.
  split_and!.
  - intros k kv. apply elem_of_prefix_read.
  - rewrite Hres. case_decide as Hn.
    + split; [intros _; by apply nil_length_inv | done].
    + split; [done | intros E; by rewrite E in Hn].
  - intros Hne.
    assert (List.length Kvs ≠ 0) as Hn by (by destruct Kvs).
    assert (Intn draw (List.length Kvs) < List.length Kvs) as Hlt
      by (by apply Nat.mod_upper_bound).
    split; [done|].
    destruct (lookup_lt_is_Some_2 _ _ Hlt) as [[k kv] Hk].
    exists k, kv. split; [done|]. rewrite Hres, decide_False by done.
    by rewrite Hk.
  - intros k kv. by apply GetServiceAddr_selectable.
Qed.

Lemma GetServiceAddr_spec_witness :
  closed (d_client resolver) = false
  ∧ hd false (faults registered_twice.2) = false
  ∧ ∀ k kv,
      (k, kv) ∈ map_to_list (filter (has_prefix "svc") (kvs (etcd registered_twice.2))) →
      ∃ i, i < List.length (map_to_list (filter (has_prefix "svc")
                                                (kvs (etcd registered_twice.2))))
           ∧ Intn i (List.length (map_to_list (filter (has_prefix "svc")
                                                (kvs (etcd registered_twice.2))))) = i
           ∧ (GetServiceAddr resolver "svc" i registered_twice.2).1 = (Value kv, None).
Proof.
  assert (closed (d_client resolver) = false) as H1 by reflexivity.
  assert (hd false (faults registered_twice.2) = false) as H2
    by (vm_compute; reflexivity).
  exact (conj H1 (conj H2
    (proj2 (proj2 (proj2
      (GetServiceAddr_spec resolver "svc" 0 registered_twice.2 H1 H2)))))).
Defined.

(** A successful [Registry]: one grant, one put under
    [name-uuid] bound to the lease just granted, renewal started. *)
Lemma Registry_success `{Service T} (service : T) u r w r' w' :
  closed (client r) = false →
  Registry service u r w = (None, r', w') →
  let id := next_lease (etcd w) in
  client r' = client r
  ∧ ServiceRegistry.leaseID r' = id
  ∧ leaseKeepAliveRespCh r' = Some id
  ∧ etcd w' = put_at (revision (etcd w) + 1) (Name service +:+ "-" +:+ u)
                     (Addr service) id (granted (leaseTTL r) (etcd w)).
Proof.
  intros Hc. rewrite Registry_unfold by done. cbv zeta.
  destruct (hd false (faults w)); [done|].
  destruct (hd false (tl (faults w))); [done|].
  destruct (hd false (tl (tl (faults w)))); [done|].
  by intros [= <- <-].
Qed.

Lemma Registry_record `{Service T} (service : T) u r w r' w' :
  closed (client r) = false →
  Registry service u r w = (None, r', w') →
  ∃ rec,
    kvs (etcd w') = <[Name service +:+ "-" +:+ u := rec]> (kvs (etcd w))
    ∧ Value rec = Addr service
    ∧ Lease rec = ServiceRegistry.leaseID r'
    ∧ ServiceRegistry.leaseID r' = next_lease (etcd w)
    ∧ next_lease (etcd w') = (next_lease (etcd w) + 1)%Z
    ∧ leases (etcd w') = <[next_lease (etcd w) := leaseTTL r]> (leases (etcd w))
    ∧ closed (client r') = false.
Proof.
  intros Hc Hr. destruct (Registry_success _ _ _ _ _ _ Hc Hr) as (Hcl & Hid & _ & ->).
  eexists. unfold put_at. rewrite kvs_notify. simpl. split; [done|].
  rewrite Hid, Hcl. by split_and!.
Qed.






(** * More about the lock *)

Lemma run_app a b σ :
  run (a ++ b) σ = match run a σ with Some σ' => run b σ' | None => None end.
Proof.
  revert σ. induction a as [|lbl a IH]; intros σ; simpl; [done|].
  destruct (sys_step lbl σ); [apply IH | done].
Qed.

(** Reading the channel up to the first batch with a Delete event moves
    the waiter to [getlock] and touches nothing but its own channel. *)
Lemma waiter_wakes q : ∀ σ j p w,
  procs σ !! j = Some p → pc p = AtRange →
  watchers (store σ) !! j = Some w → w_queue w = q →
  Exists (λ events, has_delete events = true) q →
  ∃ k σ', run (replicate k (Run j false)) σ = Some σ'
          ∧ procs σ' = <[j := goto AtTxn p]> (procs σ)
          ∧ kvs (store σ') = kvs (store σ)
          ∧ leases (store σ') = leases (store σ)
          ∧ revision (store σ') = revision (store σ).
Proof.
  induction q as [|events q IH]; intros σ j p w Hp Hpc Hw Hq Hex.
  { by apply Exists_nil in Hex. }
  assert (store_recv j (store σ)
          = Some (Response events,
                  with_watchers (<[j := {| w_key := w_key w; w_queue := q;
                                           w_closed := w_closed w |}]>
                                   (watchers (store σ))) (store σ))) as Hrecv.
  { unfold store_recv. by rewrite Hw, Hq. }
  destruct (has_delete events) eqn:Hdel.
  - exists 1. eexists. split.
    + simpl. rewrite Hp. unfold step. rewrite Hpc, Hrecv. simpl. by rewrite Hdel.
    + done.
  - apply Exists_cons in Hex as [Hex|Hex]; [congruence|].
    destruct (IH {| store := with_watchers (<[j := {| w_key := w_key w; w_queue := q;
                                                       w_closed := w_closed w |}]>
                                               (watchers (store σ))) (store σ);
                    procs := <[j := p]> (procs σ) |} j p
                 {| w_key := w_key w; w_queue := q; w_closed := w_closed w |})
      as (k & σ' & Hrun & Hprocs & Hk & Hl & Hr); try done.
    { simpl. by rewrite lookup_insert_eq. }
    { simpl. by rewrite lookup_insert_eq. }
    exists (S k), σ'. split_and!; try done.
    + simpl. rewrite Hp. unfold step. rewrite Hpc, Hrecv. simpl. by rewrite Hdel.
    + rewrite Hprocs. simpl. by rewrite insert_insert_eq.
Qed.

(** X1: hand-over.  When the caller in the critical section unlocks, a
    waiter whose lease is alive gets the lock by reading its channel and
    retrying: it ends in the Held state with the key bound to its lease. *)
Theorem unlock_hands_over σ h ph j pj :
  procs σ !! h = Some ph → pc ph = AtCritical →
  is_Some (kvs (store σ) !! lockKey) →
  waiter σ j → procs σ !! j = Some pj →
  is_Some (leases (store σ) !! DLock.leaseID pj) →
  ∃ k σ',
    run (Run h false :: replicate k (Run j false) ++ [Run j false]) σ = Some σ'
    ∧ Held σ' j
    ∧ Lease <$> kvs (store σ') !! lockKey = Some (DLock.leaseID pj)
    ∧ pc_of σ' h = Some Returned.
Proof.
  destruct σ as [s P]. simpl.
  intros Hh Hch [kv Hkv] [(pj' & Hj' & Hcj) (w & Hw & Hwk & Hopen)] Hj Hlease.
  simpl in *. assert (pj' = pj) as -> by congruence.
  assert (j ≠ h) as Hne by (intros ->; congruence).
  destruct (waiter_wakes
              (w_queue (deliver (mkEvent DELETE lockKey) w))
              {| store := notify (mkEvent DELETE lockKey)
                            (with_kvs (delete lockKey (kvs s)) (revision s + 1) s);
                 procs := <[h := goto Returned ph]> P |}
              j pj (deliver (mkEvent DELETE lockKey) w))
    as (k & σ2 & Hrun & Hprocs & Hk & Hl & _); try done.
  { simpl. by rewrite lookup_insert_ne. }
  { simpl. by rewrite lookup_fmap, Hw. }
  { unfold deliver. rewrite Hopen. simpl. rewrite decide_True by done.
    apply Exists_app. right. by apply Exists_cons_hd. }
  simpl in Hprocs, Hk, Hl.
  assert (procs σ2 !! j = Some (goto AtTxn pj)) as Hj2
    by (by rewrite Hprocs, lookup_insert_eq).
  assert (kvs (store σ2) !! lockKey = None) as Hgone
    by (by rewrite Hk, lookup_delete_eq).
  assert (lease_ok (DLock.leaseID pj) (store σ2) = true) as Hok.
  { unfold lease_ok. rewrite Hl.
    rewrite (bool_decide_eq_true_2 (is_Some _)) by done. apply orb_true_r. }
  exists k. eexists. split_and!.
  - rewrite Hh. unfold step at 1, rpc, store_delete, delete_at. rewrite Hch, Hkv.
    rewrite run_app, Hrun. simpl. rewrite Hj2. unfold step, rpc. simpl.
    rewrite store_txn_lock_txn, Hgone. simpl. rewrite Hok. done.
  - unfold Held, held. simpl. rewrite lookup_insert_eq. simpl.
    rewrite Hl. by rewrite (bool_decide_eq_true_2 (is_Some _)).
  - simpl. by rewrite lookup_insert_eq.
  - unfold pc_of. simpl. rewrite lookup_insert_ne by done.
    by rewrite Hprocs, lookup_insert_ne, lookup_insert_eq.
Qed.

Lemma unlock_hands_over_witness :
  procs (after sched_contended 2) !! 0 = Some (mkProc AtCritical 1)
  ∧ pc (mkProc AtCritical 1) = AtCritical
  ∧ is_Some (kvs (store (after sched_contended 2)) !! lockKey)
  ∧ waiter (after sched_contended 2) 1
  ∧ procs (after sched_contended 2) !! 1 = Some (mkProc AtRange 2)
  ∧ is_Some (leases (store (after sched_contended 2)) !! DLock.leaseID (mkProc AtRange 2))
  ∧ ∃ k σ',
      run (Run 0 false :: replicate k (Run 1 false) ++ [Run 1 false])
          (after sched_contended 2) = Some σ'
      ∧ Held σ' 1
      ∧ Lease <$> kvs (store σ') !! lockKey = Some (DLock.leaseID (mkProc AtRange 2))
      ∧ pc_of σ' 0 = Some Returned.
Proof.
  assert (procs (after sched_contended 2) !! 0 = Some (mkProc AtCritical 1)) as H1
    by (vm_compute; reflexivity).
  assert (pc (mkProc AtCritical 1) = AtCritical) as H2 by reflexivity.
  assert (is_Some (kvs (store (after sched_contended 2)) !! lockKey)) as H3
    by (vm_compute; eexists; reflexivity).
  assert (procs (after sched_contended 2) !! 1 = Some (mkProc AtRange 2)) as H5
    by (vm_compute; reflexivity).
  assert (waiter (after sched_contended 2) 1) as H4.
  { split.
    - exists (mkProc AtRange 2). split; [exact H5 | reflexivity].
    - exists (mkWatcher lockKey [] false). split_and!; vm_compute; reflexivity. }
  assert (is_Some (leases (store (after sched_contended 2))
                     !! DLock.leaseID (mkProc AtRange 2))) as H6
    by (vm_compute; eexists; reflexivity).
  exact (conj H1 (conj H2 (conj H3 (conj H4 (conj H5 (conj H6
    (unlock_hands_over _ 0 _ 1 _ H1 H2 H3 H4 H5 H6))))))).
Defined.

(** X2: lost wake-up.  Between its failed transaction and its call of
    [Watch] a caller sees nothing: if the holder unlocks in that window,
    the caller then opens a watch that starts after the Delete and blocks
    on it although the lock is free. *)
Theorem unlock_before_watch_is_missed σ h ph j pj :
  procs σ !! h = Some ph → pc ph = AtCritical →
  is_Some (kvs (store σ) !! lockKey) →
  procs σ !! j = Some pj → pc pj = AtWatch →
  ∃ σ', run [Run h false; Run j false] σ = Some σ'
        ∧ kvs (store σ') !! lockKey = None
        ∧ waiter σ' j
        ∧ ∀ fault, sys_step (Run j fault) σ' = None.
Proof.
  destruct σ as [s P]. simpl. intros Hh Hch [kv Hkv] Hj Hcj.
  assert (j ≠ h) as Hne by (intros ->; congruence).
  eexists. split_and!.
  - rewrite Hh. unfold step at 1, rpc, store_delete, delete_at. rewrite Hch, Hkv.
    cbn [store procs]. rewrite lookup_insert_ne by done. rewrite Hj.
    unfold step. rewrite Hcj. done.
  - simpl. by rewrite lookup_delete_eq.
  - split.
    + eexists. simpl. rewrite lookup_insert_eq. done.
    + eexists. simpl. rewrite lookup_insert_eq. done.
  - intros fault. simpl. rewrite lookup_insert_eq. unfold step, store_recv. simpl.
    by rewrite lookup_insert_eq.
Qed.

Lemma unlock_before_watch_is_missed_witness :
  procs (after (take 6 sched_contended) 2) !! 0 = Some (mkProc AtCritical 1)
  ∧ pc (mkProc AtCritical 1) = AtCritical
  ∧ is_Some (kvs (store (after (take 6 sched_contended) 2)) !! lockKey)
  ∧ procs (after (take 6 sched_contended) 2) !! 1 = Some (mkProc AtWatch 2)
  ∧ pc (mkProc AtWatch 2) = AtWatch
  ∧ ∃ σ', run [Run 0 false; Run 1 false] (after (take 6 sched_contended) 2) = Some σ'
          ∧ kvs (store σ') !! lockKey = None
          ∧ waiter σ' 1
          ∧ ∀ fault, sys_step (Run 1 fault) σ' = None.
Proof.
  assert (procs (after (take 6 sched_contended) 2) !! 0 = Some (mkProc AtCritical 1))
    as H1 by (vm_compute; reflexivity).
  assert (pc (mkProc AtCritical 1) = AtCritical) as H2 by reflexivity.
  assert (is_Some (kvs (store (after (take 6 sched_contended) 2)) !! lockKey)) as H3
    by (vm_compute; eexists; reflexivity).
  assert (procs (after (take 6 sched_contended) 2) !! 1 = Some (mkProc AtWatch 2))
    as H4 by (vm_compute; reflexivity).
  assert (pc (mkProc AtWatch 2) = AtWatch) as H5 by reflexivity.
  exact (conj H1 (conj H2 (conj H3 (conj H4 (conj H5
    (unlock_before_watch_is_missed _ 0 _ 1 _ H1 H2 H3 H4 H5)))))).
Defined.

(** The lease bookkeeping of the lock survives every step, whatever the
    environment does. *)
Lemma lease_inv_init n : lease_inv (init n).
Proof.
  split; simpl.
  - lia.
  - intros i p. rewrite lookup_map_seq_Some. intros [_ H] _.
    apply lookup_replicate in H as [-> _]. by left.
  - intros kv. by rewrite lookup_empty.
Qed.

Lemma lease_inv_goto s P i p l :
  lease_inv {| store := s; procs := P |} → P !! i = Some p →
  (∃ e, l = Fatal e) ∨ DLock.leaseID p ≠ NoLease →
  lease_inv {| store := s; procs := <[i := goto l p]> P |}.
Proof.
  intros [Hn Hg Hk] Hp Hl. split; simpl in *; try done.
  intros j q. rewrite lookup_insert. case_decide; [|by eauto].
  intros [= <-]. simpl. intros E. destruct Hl as [Hl|Hl]; [by right | done].
Qed.

Lemma lease_inv_same_keys s s' P :
  lease_inv {| store := s; procs := P |} →
  kvs s' = kvs s → leases s' = leases s → next_lease s' = next_lease s →
  lease_inv {| store := s'; procs := P |}.
Proof.
  intros [Hn Hg Hk] E1 E2 E3. split; simpl in *.
  - by rewrite E3.
  - done.
  - rewrite E1, E2. done.
Qed.

Lemma lease_inv_granted_at s P i p :
  lease_inv {| store := s; procs := P |} → P !! i = Some p →
  pc p ≠ AtGrant → (∀ e, pc p ≠ Fatal e) → DLock.leaseID p ≠ NoLease.
Proof.
  intros [_ Hg _] Hp H1 H2 E. simpl in *.
  destruct (Hg _ _ Hp E) as [?|[e ?]]; [done | by eapply H2].
Qed.

Lemma lease_inv_step lbl σ σ' :
  lease_inv σ → sys_step lbl σ = Some σ' → lease_inv σ'.
Proof.
  destruct σ as [s P]. intros Hinv. destruct lbl as [i fault|i|l]; simpl.
  - destruct (P !! i) as [p|] eqn:Hp; [|done].
    destruct (step i fault p s) as [[p' s']|] eqn:Hstep; [|done].
    intros [= <-]. revert Hstep. unfold step, rpc.
    destruct (pc p) eqn:Hpc.
    + destruct fault; intros [= <- <-].
      { apply lease_inv_goto; eauto. }
      destruct Hinv as [Hn Hg Hk]. simpl in *. split; simpl.
      * lia.
      * intros j q. rewrite lookup_insert. case_decide; [|by eauto].
        intros [= <-]. simpl. unfold NoLease. lia.
      * intros kv Hkv. destruct (Hk kv Hkv) as [? [t Ht]]. split; [done|].
        rewrite lookup_insert. case_decide; by eexists.
    + destruct fault; intros [= <- <-]; apply lease_inv_goto; eauto.
      right. eapply lease_inv_granted_at; eauto; congruence.
    + assert (DLock.leaseID p ≠ NoLease) as Hnz
        by (eapply lease_inv_granted_at; eauto; congruence).
      destruct fault; [intros [= <- <-]; apply lease_inv_goto; eauto|].
      rewrite store_txn_lock_txn. case_bool_decide.
      * destruct (lease_ok (DLock.leaseID p) s) eqn:Hok; intros [= <- <-];
          [|apply lease_inv_goto; eauto].
        apply lease_inv_goto; [|done|by right].
        destruct Hinv as [Hn Hg Hk]. split; simpl in *; try done.
        intros kv. rewrite lookup_insert_eq. intros [= <-]. simpl.
        split; [done|]. unfold lease_ok in Hok.
        apply orb_true_iff in Hok as [Hok|Hok].
        { by apply bool_decide_eq_true in Hok. }
        by apply bool_decide_eq_true in Hok.
      * intros [= <- <-]. apply lease_inv_goto; eauto.
    + intros [= <- <-]. apply lease_inv_goto.
      * by eapply lease_inv_same_keys.
      * done.
      * right. eapply lease_inv_granted_at; eauto; congruence.
    + destruct (store_recv i s) as [[m s1]|] eqn:Hrecv; [|done].
      intros [= <- <-].
      assert (DLock.leaseID p ≠ NoLease) as Hnz
        by (eapply lease_inv_granted_at; eauto; congruence).
      assert (lease_inv {| store := s1; procs := P |}) as Hinv1.
      { apply store_recv_Some in Hrecv as (w & _ & Hm). destruct m.
        - destruct Hm as (q & _ & ->). by eapply lease_inv_same_keys.
        - by destruct Hm as (_ & _ & ->). }
      destruct m as [events|]; simpl.
      * destruct (has_delete events); [apply lease_inv_goto; eauto|].
        rewrite <- (goto_same p). apply lease_inv_goto; eauto.
      * apply lease_inv_goto; eauto.
    + destruct fault; [intros [= <- <-]; apply lease_inv_goto; eauto|].
      unfold store_delete, delete_at.
      destruct (kvs s !! lockKey) as [kv|] eqn:Hkv; intros [= <- <-].
      * apply lease_inv_goto; [|done|].
        { destruct Hinv as [Hn Hg Hk]. split; simpl in *; try done.
          intros kv'. by rewrite lookup_delete_eq. }
        right. eapply lease_inv_granted_at; eauto; congruence.
      * apply lease_inv_goto; eauto.
        right. eapply lease_inv_granted_at; eauto; congruence.
    + done.
    + done.
  - intros [= <-]. by eapply lease_inv_same_keys.
  - intros [= <-]. unfold store_expire.
    destruct (leases s !! l) as [t|] eqn:Hl; [|done].
    destruct Hinv as [Hn Hg Hk]. split; simpl in *.
    + by rewrite next_lease_drop_lease.
    + done.
    + intros kv. rewrite kvs_drop_lease, leases_drop_lease. intros Hkv.
      apply map_lookup_filter_Some in Hkv as [Hkv Hnot].
      destruct (Hk kv Hkv) as [? ?]. split; [done|].
      rewrite lookup_delete_ne; [done|]. unfold bound_to in Hnot. simpl in Hnot.
      congruence.
Qed.

Lemma lease_inv_run sched : ∀ σ σ',
  lease_inv σ → run sched σ = Some σ' → lease_inv σ'.
Proof.
  induction sched as [|lbl rest IH]; intros σ σ' Hinv; simpl.
  - by intros [= <-].
  - destruct (sys_step lbl σ) as [σ1|] eqn:Hstep; [|done].
    apply IH. by eapply lease_inv_step.
Qed.

(** C5 (amended): the code never checks the lease.  A nil lease never
    reaches an attempt: a caller without a granted lease is still before
    [Grant] or has stopped at [t.Fatalf].  An attempt made with an
    expired lease fails at once, with the store's lease-not-found error
    and without watching, only when the lock key is absent; while the
    key exists the transaction reports "not succeeded", nothing is
    written, and the caller goes on to watch like any other waiter. *)
Theorem lock_attempt_with_invalid_lease n sched σ i p :
  run sched (init n) = Some σ →
  procs σ !! i = Some p →
  pc p = AtTxn →
  leases (store σ) !! DLock.leaseID p = None →
  DLock.leaseID p ≠ NoLease
  ∧ (∀ j q, procs σ !! j = Some q → DLock.leaseID q = NoLease →
            pc q = AtGrant ∨ ∃ e, pc q = Fatal e)
  ∧ ∃ σ', sys_step (Run i false) σ = Some σ'
          ∧ store σ' = store σ
          ∧ pc_of σ' i = Some (match kvs (store σ) !! lockKey with
                               | Some _ => AtWatch
                               | None => Fatal ErrLeaseNotFound
                               end).
Proof.
  intros Hrun Hp Hpc Hdead.
  pose proof (lease_inv_run _ _ _ (lease_inv_init n) Hrun) as Hinv.
  destruct (revisions_ok_run _ _ _ Hrun) as [_ Hrev].
  destruct σ as [s P]. simpl in *.
  assert (DLock.leaseID p ≠ NoLease) as Hnz
    by (eapply lease_inv_granted_at; eauto; congruence).
  split_and!; [done | by destruct Hinv |].
  rewrite Hp. unfold step, rpc. rewrite Hpc, store_txn_lock_txn.
  destruct (kvs s !! lockKey) as [kv|] eqn:Hkv; simpl.
  - pose proof (Hrev _ _ Hkv) as Hpos. simpl in Hpos.
    rewrite bool_decide_eq_false_2 by lia.
    eexists. split; [done|]. split; [done|].
    unfold pc_of. simpl. by rewrite lookup_insert_eq.
  - unfold lease_ok. rewrite Hdead.
    rewrite bool_decide_eq_false_2 by done.
    rewrite bool_decide_eq_false_2 by (by intros [? ?]). simpl.
    eexists. split; [done|]. split; [done|].
    unfold pc_of. simpl. by rewrite lookup_insert_eq.
Qed.

Lemma lock_attempt_with_invalid_lease_witness :
  run sched_dead_lease (init 2) = Some (after sched_dead_lease 2)
  ∧ procs (after sched_dead_lease 2) !! 1 = Some (mkProc AtTxn 2)
  ∧ pc (mkProc AtTxn 2) = AtTxn
  ∧ leases (store (after sched_dead_lease 2)) !! DLock.leaseID (mkProc AtTxn 2) = None
  ∧ ∃ σ', sys_step (Run 1 false) (after sched_dead_lease 2) = Some σ'
          ∧ store σ' = store (after sched_dead_lease 2)
          ∧ pc_of σ' 1
            = Some (match kvs (store (after sched_dead_lease 2)) !! lockKey with
                    | Some _ => AtWatch
                    | None => Fatal ErrLeaseNotFound
                    end).
Proof.
  assert (run sched_dead_lease (init 2) = Some (after sched_dead_lease 2)) as H1
    by (vm_compute; reflexivity).
  assert (procs (after sched_dead_lease 2) !! 1 = Some (mkProc AtTxn 2)) as H2
    by (vm_compute; reflexivity).
  assert (pc (mkProc AtTxn 2) = AtTxn) as H3 by reflexivity.
  assert (leases (store (after sched_dead_lease 2))
            !! DLock.leaseID (mkProc AtTxn 2) = None) as H4
    by (vm_compute; reflexivity).
  exact (conj H1 (conj H2 (conj H3 (conj H4
    (proj2 (proj2 (lock_attempt_with_invalid_lease 2 _ _ 1 _ H1 H2 H3 H4))))))).
Defined.

(** X3: in every execution, whatever fails and whatever expires, the
    lock key, whenever it exists, is bound to a lease (never to
    [NoLease]) that is alive in the store; so the expiry of that lease
    removes the key: a holder that dies cannot keep the lock for ever. *)
Theorem lock_key_is_leased n sched σ kv :
  run sched (init n) = Some σ →
  kvs (store σ) !! lockKey = Some kv →
  Lease kv ≠ NoLease
  ∧ is_Some (leases (store σ) !! Lease kv)
  ∧ ∃ σ', sys_step (Expire (Lease kv)) σ = Some σ'
          ∧ kvs (store σ') !! lockKey = None.
Proof.
  intros Hrun Hkv.
  pose proof (lease_inv_run _ _ _ (lease_inv_init n) Hrun) as [_ _ Hk].
  destruct (Hk kv Hkv) as [Hnz [t Ht]]. split_and!; [done | by eexists |].
  eexists. split; [done|]. simpl. unfold store_expire. rewrite Ht.
  rewrite kvs_drop_lease. apply map_lookup_filter_None. right.
  intros kv' Hkv' Hnot. apply Hnot. unfold bound_to. simpl. congruence.
Qed.

Lemma lock_key_is_leased_witness :
  run sched_contended (init 2) = Some (after sched_contended 2)
  ∧ kvs (store (after sched_contended 2)) !! lockKey
    = Some (mkKeyValue "locked" 2 2 1)
  ∧ Lease (mkKeyValue "locked" 2 2 1) ≠ NoLease
  ∧ is_Some (leases (store (after sched_contended 2)) !! Lease (mkKeyValue "locked" 2 2 1))
  ∧ ∃ σ', sys_step (Expire (Lease (mkKeyValue "locked" 2 2 1)))
                   (after sched_contended 2) = Some σ'
          ∧ kvs (store σ') !! lockKey = None.
Proof.
  assert (run sched_contended (init 2) = Some (after sched_contended 2)) as H1
    by (vm_compute; reflexivity).
  assert (kvs (store (after sched_contended 2)) !! lockKey
          = Some (mkKeyValue "locked" 2 2 1)) as H2 by (vm_compute; reflexivity).
  exact (conj H1 (conj H2 (lock_key_is_leased 2 _ _ _ H1 H2))).
Defined.

(** X4: in an undisturbed execution, a caller in the critical section
    owns the lock: the key exists and is bound to that caller's lease. *)
Theorem holder_owns_key n sched σ i p :
  quiet sched (init n) = true →
  run sched (init n) = Some σ →
  procs σ !! i = Some p → pc p = AtCritical →
  ∃ kv, kvs (store σ) !! lockKey = Some kv
        ∧ Lease kv = DLock.leaseID p
        ∧ DLock.leaseID p ≠ NoLease.
Proof.
  intros Hq Hrun Hp Hc.
  destruct (inv_run_quiet _ _ _ (inv_init n) Hq Hrun) as [_ HP].
  destruct (ok_holder _ _ HP _ _ Hp Hc) as (kv & Hkv & Hl).
  exists kv. split_and!; try done.
  eapply granted_at; eauto; congruence.
Qed.

Lemma holder_owns_key_witness :
  quiet sched_contended (init 2) = true
  ∧ run sched_contended (init 2) = Some (after sched_contended 2)
  ∧ procs (after sched_contended 2) !! 0 = Some (mkProc AtCritical 1)
  ∧ pc (mkProc AtCritical 1) = AtCritical
  ∧ ∃ kv, kvs (store (after sched_contended 2)) !! lockKey = Some kv
          ∧ Lease kv = DLock.leaseID (mkProc AtCritical 1)
          ∧ DLock.leaseID (mkProc AtCritical 1) ≠ NoLease.
Proof.
  assert (quiet sched_contended (init 2) = true) as H1 by (vm_compute; reflexivity).
  assert (run sched_contended (init 2) = Some (after sched_contended 2)) as H2
    by (vm_compute; reflexivity).
  assert (procs (after sched_contended 2) !! 0 = Some (mkProc AtCritical 1)) as H3
    by (vm_compute; reflexivity).
  assert (pc (mkProc AtCritical 1) = AtCritical) as H4 by reflexivity.
  exact (conj H1 (conj H2 (conj H3 (conj H4
    (holder_owns_key 2 _ _ 0 _ H1 H2 H3 H4))))).
Defined.

(** A caller that has stopped at [t.Fatalf] stays there. *)
Lemma fatal_is_final sched : ∀ σ σ' h e,
  run sched σ = Some σ' →
  pc_of σ h = Some (Fatal e) → pc_of σ' h = Some (Fatal e).
Proof.
  induction sched as [|lbl rest IH]; intros σ σ' h e; simpl.
  - by intros [= <-].
  - destruct (sys_step lbl σ) as [σ1|] eqn:Hstep; [|done].
    intros Hrun Hpc. apply (IH σ1); [done|].
    destruct lbl as [i fault|i|l]; simpl in Hstep.
    + destruct (procs σ !! i) as [p|] eqn:Hp; [|done].
      destruct (step i fault p (store σ)) as [[p' s']|] eqn:Hs; [|done].
      injection Hstep as <-. unfold pc_of in *. simpl.
      destruct (decide (i = h)) as [->|Hne].
      * rewrite Hp in Hpc. simpl in Hpc. injection Hpc as Hpc.
        unfold step in Hs. by rewrite Hpc in Hs.
      * by rewrite lookup_insert_ne.
    + by injection Hstep as <-.
    + by injection Hstep as <-.
Qed.

(** X5: an Unlock whose [Delete] fails in transit is not retried.  The
    caller stops at [t.Fatalf] and stays there in every continuation;
    the failed call leaves the store as it was, so the key is still
    there; and an attempt another caller makes in that state reports
    "not succeeded", writes nothing and goes on to watch. *)
Theorem failed_unlock_keeps_lock_taken σ h ph :
  revisions_ok (store σ) →
  procs σ !! h = Some ph → pc ph = AtCritical →
  is_Some (kvs (store σ) !! lockKey) →
  ∃ σ', sys_step (Run h true) σ = Some σ'
        ∧ store σ' = store σ
        ∧ pc_of σ' h = Some (Fatal ErrUnavailable)
        ∧ (∀ fault, sys_step (Run h fault) σ' = None)
        ∧ (∀ sched σ'', run sched σ' = Some σ'' →
             pc_of σ'' h = Some (Fatal ErrUnavailable))
        ∧ ∀ j pj, procs σ' !! j = Some pj → pc pj = AtTxn →
            ∃ σ'', sys_step (Run j false) σ' = Some σ''
                   ∧ pc_of σ'' j = Some AtWatch
                   ∧ store σ'' = store σ.
Proof.
  destruct σ as [s P]. simpl. intros [_ Hrev] Hh Hch [kv Hkv].
  eexists. rewrite Hh. unfold step at 1, rpc. rewrite Hch.
  split; [done|]. simpl. split_and!; try done.
  - unfold pc_of. simpl. by rewrite lookup_insert_eq.
  - intros fault. by rewrite lookup_insert_eq.
  - intros sched σ'' Hrun. eapply fatal_is_final; [done|].
    unfold pc_of. simpl. by rewrite lookup_insert_eq.
  - intros j pj Hj Hcj. rewrite Hj. unfold step, rpc.
    rewrite Hcj, store_txn_lock_txn, Hkv. simpl.
    pose proof (Hrev _ _ Hkv) as Hpos. simpl in Hpos.
    rewrite bool_decide_eq_false_2 by lia.
    eexists. split; [done|]. simpl. split; [|done].
    unfold pc_of. simpl. by rewrite lookup_insert_eq.
Qed.

Lemma failed_unlock_keeps_lock_taken_witness :
  revisions_ok (store (after sched_contended 2))
  ∧ procs (after sched_contended 2) !! 0 = Some (mkProc AtCritical 1)
  ∧ pc (mkProc AtCritical 1) = AtCritical
  ∧ is_Some (kvs (store (after sched_contended 2)) !! lockKey)
  ∧ ∃ σ', sys_step (Run 0 true) (after sched_contended 2) = Some σ'
          ∧ store σ' = store (after sched_contended 2)
          ∧ pc_of σ' 0 = Some (Fatal ErrUnavailable)
          ∧ (∀ fault, sys_step (Run 0 fault) σ' = None)
          ∧ (∀ sched σ'', run sched σ' = Some σ'' →
               pc_of σ'' 0 = Some (Fatal ErrUnavailable))
          ∧ ∀ j pj, procs σ' !! j = Some pj → pc pj = AtTxn →
              ∃ σ'', sys_step (Run j false) σ' = Some σ''
                     ∧ pc_of σ'' j = Some AtWatch
                     ∧ store σ'' = store (after sched_contended 2).
Proof.
  assert (revisions_ok (store (after sched_contended 2))) as H1.
  { split; [vm_compute; discriminate|].
    apply (bool_decide_unpack _). vm_compute. exact I. }
  assert (procs (after sched_contended 2) !! 0 = Some (mkProc AtCritical 1)) as H2
    by (vm_compute; reflexivity).
  assert (pc (mkProc AtCritical 1) = AtCritical) as H3 by reflexivity.
  assert (is_Some (kvs (store (after sched_contended 2)) !! lockKey)) as H4
    by (vm_compute; eexists; reflexivity).
  exact (conj H1 (conj H2 (conj H3 (conj H4
    (failed_unlock_keeps_lock_taken _ 0 _ H1 H2 H3 H4))))).
Defined.

(** X6: the loop over [w.Events] asks for a retry exactly when some
    event of the batch, at any position, is a Delete; what else the
    batch carries, before or after it, makes no difference. *)
Theorem has_delete_iff events :
  has_delete events = true ↔ ∃ ev, ev ∈ events ∧ Type_ ev = DELETE.
Proof.
  induction events as [|ev rest IH]; simpl.
  - split; [done | intros (ev & Hin & _); by apply not_elem_of_nil in Hin].
  - case_decide as Hd.
    + split; [intros _; exists ev; split; [left | done] | done].
    + rewrite IH. split.
      * intros (ev' & Hin & Ht). exists ev'. split; [by right | done].
      * intros (ev' & Hin & Ht). apply elem_of_cons in Hin as [->|Hin]; [done|].
        by exists ev'.
Qed.

(** * The spin lock *)

Lemma spin_inv_init n : Spin.inv (Spin.init n).
Proof.
  assert (∀ i w, Spin.at_ (Spin.init n) !! i = Some w → w = Spin.Outside) as Hi.
  { intros i w. simpl. rewrite lookup_map_seq_Some. intros [_ H].
    by apply lookup_replicate in H as [-> _]. }
  split; simpl.
  - by left.
  - intros i H. by apply Hi in H.
  - intros i j H. by apply Hi in H.
  - done.
Qed.

Lemma spin_inv_act i σ σ' : Spin.inv σ → Spin.act i σ = Some σ' → Spin.inv σ'.
Proof.
  destruct σ as [[f] A]. intros [Hf Hin Hone Htk]. unfold Spin.act. simpl in *.
  destruct (A !! i) as [[]|] eqn:Hi; [| | |done].
  - (* the call of Lock *)
    intros [= <-]. split; simpl; try done.
    + intros j. rewrite lookup_insert. case_decide; [done | eauto].
    + intros j k. rewrite !lookup_insert. repeat case_decide; try done. eauto.
    + intros E. destruct (Htk E) as [j Hj]. exists j.
      rewrite lookup_insert_ne; [done | congruence].
  - (* one turn of the loop *)
    unfold Spin.Lock_iter, Spin.CompareAndSwapInt32. simpl. case_decide as Hz.
    + intros [= <-]. split; simpl.
      * by right.
      * done.
      * intros j k. rewrite !lookup_insert. repeat case_decide; subst; try done.
        -- intros _ Hk. specialize (Hin _ Hk). lia.
        -- intros Hj _. specialize (Hin _ Hj). lia.
        -- intros Hj _. specialize (Hin _ Hj). lia.
      * intros _. exists i. by rewrite lookup_insert_eq.
    + intros [= <-]. split; simpl; try done.
      * intros j. rewrite lookup_insert. case_decide; [done | eauto].
      * intros j k. rewrite !lookup_insert. repeat case_decide; try done. eauto.
      * intros E. destruct (Htk E) as [j Hj]. exists j.
        rewrite lookup_insert_ne; [done | congruence].
  - (* Unlock *)
    intros [= <-]. split; simpl.
    + by left.
    + intros j. rewrite lookup_insert. case_decide; [done|].
      intros Hj. exfalso. apply H. eauto.
    + intros j k. rewrite !lookup_insert. repeat case_decide; try done. eauto.
    + done.
Qed.

Lemma spin_inv_run sched : ∀ σ σ',
  Spin.inv σ → Spin.run sched σ = Some σ' → Spin.inv σ'.
Proof.
  induction sched as [|i rest IH]; intros σ σ' Hinv; simpl.
  - by intros [= <-].
  - destruct (Spin.act i σ) as [σ1|] eqn:Hact; [|done].
    apply IH. by eapply spin_inv_act.
Qed.

(** X7: mutual exclusion of the spin lock.  Among goroutines that call
    [Unlock] only after their own [Lock] has returned, in every
    interleaving at most one is between the return of [Lock] and its
    [Unlock], and the flag is 1 exactly while one is. *)
Theorem spin_lock_mutual_exclusion n sched σ :
  Spin.run sched (Spin.init n) = Some σ →
  (∀ i j, Spin.at_ σ !! i = Some Spin.Inside →
          Spin.at_ σ !! j = Some Spin.Inside → i = j)
  ∧ (Spin.flag (Spin.sl σ) = 1%Z ↔ ∃ i, Spin.at_ σ !! i = Some Spin.Inside)
  ∧ (Spin.flag (Spin.sl σ) = 0%Z ∨ Spin.flag (Spin.sl σ) = 1%Z).
Proof.
  intros Hrun.
  destruct (spin_inv_run _ _ _ (spin_inv_init n) Hrun) as [Hf Hin Hone Htk].
  split_and!; try done.
  split; [done | intros [i Hi]; eauto].
Qed.

Lemma spin_lock_mutual_exclusion_witness :
  Spin.run [0; 1; 0; 1; 1] (Spin.init 2)
  = Some {| Spin.sl := {| Spin.flag := 1 |};
            Spin.at_ := <[1 := Spin.InLock]> (<[0 := Spin.Inside]> ∅) |}
  ∧ (∀ i j,
       (<[1 := Spin.InLock]> (<[0 := Spin.Inside]> (∅ : gmap nat Spin.Where)))
         !! i = Some Spin.Inside →
       (<[1 := Spin.InLock]> (<[0 := Spin.Inside]> (∅ : gmap nat Spin.Where)))
         !! j = Some Spin.Inside → i = j)
  ∧ (1%Z = 1%Z ↔
     ∃ i, (<[1 := Spin.InLock]> (<[0 := Spin.Inside]> (∅ : gmap nat Spin.Where)))
            !! i = Some Spin.Inside)
  ∧ (1%Z = 0%Z ∨ 1%Z = 1%Z).
Proof.
  assert (Spin.run [0; 1; 0; 1; 1] (Spin.init 2)
          = Some {| Spin.sl := {| Spin.flag := 1 |};
                    Spin.at_ := <[1 := Spin.InLock]> (<[0 := Spin.Inside]> ∅) |}) as H1
    by (vm_compute; reflexivity).
  exact (conj H1 (spin_lock_mutual_exclusion 2 _ _ H1)).
Defined.

(** X8: [Lock], run alone, returns exactly when the flag is 0, at the
    first turn of its loop and leaving the flag at 1; on a lock that is
    taken it spins whatever the number of turns, so a goroutine that
    calls [Lock] twice without [Unlock] never gets out.  After [Unlock],
    [Lock] returns at once, whatever the flag was before. *)
Theorem Lock_returns_iff_free fuel sl :
  Spin.Lock fuel sl
  = (if decide (fuel ≠ 0 ∧ Spin.flag sl = 0%Z)
     then Some {| Spin.flag := 1 |} else None)
  ∧ Spin.Lock (S fuel) (Spin.Unlock sl) = Some {| Spin.flag := 1 |}
  ∧ Spin.Lock fuel {| Spin.flag := 1 |} = None.
Proof.
  assert (∀ fuel sl, Spin.Lock fuel sl
            = if decide (fuel ≠ 0 ∧ Spin.flag sl = 0%Z)
              then Some {| Spin.flag := 1 |} else None) as Hspec.
  { clear. induction fuel as [|fuel IH]; intros [f].
    - destruct (decide (0 ≠ 0 ∧ Spin.flag {| Spin.flag := f |} = 0%Z)) as [[? _]|_];
        done.
    - cbn [Spin.Lock]. unfold Spin.Lock_iter, Spin.CompareAndSwapInt32.
      cbn [Spin.flag].
      destruct (decide (S fuel ≠ 0 ∧ f = 0%Z)) as [[_ ->]|Hn].
      + by rewrite decide_True by done.
      + assert (f ≠ 0%Z) as Hf by (intros ->; by apply Hn).
        rewrite decide_False by done. rewrite IH.
        destruct (decide (fuel ≠ 0 ∧ Spin.flag {| Spin.flag := f |} = 0%Z))
          as [[_ ?]|_]; done. }
  split_and!.
  - apply Hspec.
  - rewrite Hspec.
    destruct (decide (S fuel ≠ 0 ∧ Spin.flag (Spin.Unlock sl) = 0%Z)) as [_|Hn];
      [done|]. by destruct Hn.
  - rewrite Hspec.
    destruct (decide (fuel ≠ 0 ∧ Spin.flag {| Spin.flag := 1 |} = 0%Z))
      as [[_ ?]|_]; done.
Qed.

(** * More about registration and discovery *)

(** [DeRegistry], call by call. *)
Lemma DeRegistry_unfold r w :
  closed (client r) = false →
  DeRegistry r w =
    let fs := faults w in
    if hd false fs
    then (Some ErrUnavailable, r, {| etcd := etcd w; faults := tl fs |})
    else match leases (etcd w) !! ServiceRegistry.leaseID r with
         | None => (Some ErrLeaseNotFound, r, {| etcd := etcd w; faults := tl fs |})
         | Some _ =>
             (if hd false (tl fs) then Some ErrUnavailable else None,
              {| client := {| closed := true |};
                 ServiceRegistry.leaseID := ServiceRegistry.leaseID r;
                 leaseTTL := leaseTTL r;
                 leaseKeepAliveRespCh := leaseKeepAliveRespCh r |},
              {| etcd := drop_lease (ServiceRegistry.leaseID r) (etcd w);
                 faults := tl (tl fs) |})
         end.
Proof.
  intros Hc. unfold DeRegistry, bind, call, ret, rpc, Close, store_revoke.
  rewrite Hc. cbv zeta. destruct (hd false (faults w)); [done|].
  by destruct (leases (etcd w) !! ServiceRegistry.leaseID r).
Qed.

(** Revoking the lease of a record just written on top of [m] gives [m]
    back, when the lease is newer than every lease [m] mentions. *)
Lemma filter_out_new (m : gmap string KeyValue) key rec id :
  m !! key = None → Lease rec = id →
  map_Forall (λ _ kv, (Lease kv < id)%Z) m →
  filter (λ p, ¬ bound_to id p) (<[key := rec]> m) = m.
Proof.
  intros Hkey Hl Hm. rewrite map_filter_insert_False.
  - rewrite delete_id by done. apply map_filter_id.
    intros k kv Hk. unfold bound_to. simpl. specialize (Hm _ _ Hk). simpl in Hm. lia.
  - intros Hn. apply Hn. done.
Qed.

Lemma ids_ok_lease_fresh s : ids_ok s → leases s !! next_lease s = None.
Proof.
  intros (_ & Hl & _). destruct (leases s !! next_lease s) as [t|] eqn:E; [|done].
  specialize (Hl _ _ E). simpl in Hl. lia.
Qed.

Lemma ids_ok_no_lease_zero s : ids_ok s → leases s !! NoLease = None.
Proof.
  intros (_ & Hl & _). destruct (leases s !! NoLease) as [t|] eqn:E; [|done].
  specialize (Hl _ _ E). simpl in Hl. unfold NoLease in Hl. lia.
Qed.

(** X9: a successful [DeRegistry] deletes exactly the records bound to
    the lease in [r.leaseID] and that lease; every other record and
    every other lease is left as it was, and the client is closed. *)
Theorem DeRegistry_effect r w r' w' :
  closed (client r) = false →
  DeRegistry r w = (None, r', w') →
  (∀ k, kvs (etcd w') !! k
        = match kvs (etcd w) !! k with
          | Some kv => if decide (Lease kv = ServiceRegistry.leaseID r)
                       then None else Some kv
          | None => None
          end)
  ∧ (∀ l, leases (etcd w') !! l
          = if decide (l = ServiceRegistry.leaseID r) then None
            else leases (etcd w) !! l)
  ∧ is_Some (leases (etcd w) !! ServiceRegistry.leaseID r)
  ∧ closed (client r') = true
  ∧ ServiceRegistry.leaseID r' = ServiceRegistry.leaseID r.
Proof.
  intros Hc. rewrite DeRegistry_unfold by done. cbv zeta.
  destruct (hd false (faults w)); [done|].
  destruct (leases (etcd w) !! ServiceRegistry.leaseID r) as [t|] eqn:Hl; [|done].
  destruct (hd false (tl (faults w))); [done|]. intros [= <- <-]. simpl.
  split_and!; try done.
  - intros k. rewrite kvs_drop_lease, map_lookup_filter.
    destruct (kvs (etcd w) !! k) as [kv|]; simpl; [|done].
    unfold bound_to. simpl. case_decide as Hd.
    + by rewrite option_guard_False by (intros Hn; by apply Hn).
    + by rewrite option_guard_True by done.
  - intros l. rewrite leases_drop_lease. case_decide as Hd.
    + subst. by rewrite lookup_delete_eq.
    + by rewrite lookup_delete_ne.
Qed.

Lemma DeRegistry_effect_witness :
  closed (client registered_twice.1.2) = false
  ∧ DeRegistry registered_twice.1.2 registered_twice.2
    = (None, deregistered.1.2, deregistered.2)
  ∧ (∀ k, kvs (etcd deregistered.2) !! k
          = match kvs (etcd registered_twice.2) !! k with
            | Some kv =>
                if decide (Lease kv = ServiceRegistry.leaseID registered_twice.1.2)
                then None else Some kv
            | None => None
            end)
  ∧ (∀ l, leases (etcd deregistered.2) !! l
          = if decide (l = ServiceRegistry.leaseID registered_twice.1.2) then None
            else leases (etcd registered_twice.2) !! l)
  ∧ is_Some (leases (etcd registered_twice.2)
               !! ServiceRegistry.leaseID registered_twice.1.2)
  ∧ closed (client deregistered.1.2) = true
  ∧ ServiceRegistry.leaseID deregistered.1.2
    = ServiceRegistry.leaseID registered_twice.1.2.
Proof.
  assert (closed (client registered_twice.1.2) = false) as H1
    by (vm_compute; reflexivity).
  assert (DeRegistry registered_twice.1.2 registered_twice.2
          = (None, deregistered.1.2, deregistered.2)) as H2
    by (vm_compute; reflexivity).
  exact (conj H1 (conj H2 (DeRegistry_effect _ _ _ _ H1 H2))).
Defined.

(** X10: a registry as [NewEtcdRegistry] returns it has an open client
    and no lease, and the endpoint list it was given is not empty.
    Deregistering it before any registration asks the store to revoke
    lease 0, which no store has: [DeRegistry] returns the store's error,
    leaves the store alone and does not close the client. *)
Theorem DeRegistry_before_Registry endpoints timeout ttl r w :
  Connect.NewEtcdRegistry endpoints timeout ttl false = inr r →
  ids_ok (etcd w) →
  hd false (faults w) = false →
  endpoints ≠ []
  ∧ closed (client r) = false
  ∧ ServiceRegistry.leaseID r = NoLease
  ∧ leaseTTL r = ttl
  ∧ ∃ w', DeRegistry r w = (Some ErrLeaseNotFound, r, w') ∧ etcd w' = etcd w.
Proof.
  unfold Connect.NewEtcdRegistry, Connect.New. case_decide as Hn; [done|].
  intros [= <-] Hids Hf. split_and!; try done.
  { intros ->. by apply Hn. }
  rewrite DeRegistry_unfold by done. cbv zeta. rewrite Hf. simpl.
  fold NoLease. rewrite (ids_ok_no_lease_zero _ Hids). by eexists.
Qed.

Lemma DeRegistry_before_Registry_witness :
  Connect.NewEtcdRegistry ["localhost:2379"%string] 5 LeaseTTL false
  = inr (NewEtcdRegistry LeaseTTL)
  ∧ ids_ok (etcd world0)
  ∧ hd false (faults world0) = false
  ∧ ["localhost:2379"%string] ≠ []
  ∧ closed (client (NewEtcdRegistry LeaseTTL)) = false
  ∧ ServiceRegistry.leaseID (NewEtcdRegistry LeaseTTL) = NoLease
  ∧ leaseTTL (NewEtcdRegistry LeaseTTL) = LeaseTTL
  ∧ ∃ w', DeRegistry (NewEtcdRegistry LeaseTTL) world0
          = (Some ErrLeaseNotFound, NewEtcdRegistry LeaseTTL, w')
          ∧ etcd w' = etcd world0.
Proof.
  assert (Connect.NewEtcdRegistry ["localhost:2379"%string] 5 LeaseTTL false
          = inr (NewEtcdRegistry LeaseTTL)) as H1 by reflexivity.
  assert (ids_ok (etcd world0)) as H2.
  { split_and!; [vm_compute; reflexivity | |];
      intros k x; simpl; rewrite lookup_empty; discriminate. }
  assert (hd false (faults world0) = false) as H3 by reflexivity.
  exact (conj H1 (conj H2 (conj H3
    (DeRegistry_before_Registry _ _ _ _ _ H1 H2 H3)))).
Defined.

(** X11: round trip.  A registration followed by a deregistration, both
    successful, leaves the records and the leases of the store exactly
    as they were before, provided the key was free; only the lease
    counter has moved on. *)
Theorem Registry_DeRegistry_round_trip `{Service T} (service : T) u r w r1 w1 r2 w2 :
  closed (client r) = false →
  ids_ok (etcd w) →
  kvs (etcd w) !! (Name service +:+ "-" +:+ u) = None →
  Registry service u r w = (None, r1, w1) →
  DeRegistry r1 w1 = (None, r2, w2) →
  kvs (etcd w2) = kvs (etcd w)
  ∧ leases (etcd w2) = leases (etcd w)
  ∧ next_lease (etcd w2) = (next_lease (etcd w) + 1)%Z
  ∧ closed (client r2) = true.
Proof.
  intros Hc Hids Hfree Hr Hd.
  destruct (Registry_record _ _ _ _ _ _ Hc Hr)
    as (rec & Hk & _ & Hl & Hid & Hn & Hls & Hc1).
  destruct (DeRegistry_revokes_current _ _ _ _ Hc1 Hd) as (Hk2 & Hl2 & Hc2).
  split_and!; try done.
  - rewrite Hk2, Hk. apply filter_out_new; try done.
    rewrite Hid. by destruct Hids as (_ & _ & ?).
  - rewrite Hl2, Hls, Hid, delete_insert_eq.
    apply delete_id, ids_ok_lease_fresh. done.
  - revert Hd. rewrite DeRegistry_unfold by done. cbv zeta.
    destruct (hd false (faults w1)); [done|].
    destruct (leases (etcd w1) !! ServiceRegistry.leaseID r1); [|done].
    destruct (hd false (tl (faults w1))); [done|]. intros [= <- <-]. simpl.
    by rewrite next_lease_drop_lease.
Qed.

Lemma Registry_DeRegistry_round_trip_witness :
  closed (client (NewEtcdRegistry LeaseTTL)) = false
  ∧ ids_ok (etcd world0)
  ∧ kvs (etcd world0) !! (Name (mkOrderService "svc" "host:1") +:+ "-" +:+ "a") = None
  ∧ Registry (mkOrderService "svc" "host:1") "a" (NewEtcdRegistry LeaseTTL) world0
    = (None, registered_once.1.2, registered_once.2)
  ∧ DeRegistry registered_once.1.2 registered_once.2
    = (None, deregistered_single.1.2, deregistered_single.2)
  ∧ kvs (etcd deregistered_single.2) = kvs (etcd world0)
  ∧ leases (etcd deregistered_single.2) = leases (etcd world0)
  ∧ next_lease (etcd deregistered_single.2) = (next_lease (etcd world0) + 1)%Z
  ∧ closed (client deregistered_single.1.2) = true.
Proof.
  assert (closed (client (NewEtcdRegistry LeaseTTL)) = false) as H1 by reflexivity.
  assert (ids_ok (etcd world0)) as H2.
  { split_and!; [vm_compute; reflexivity | |];
      intros k x; simpl; rewrite lookup_empty; discriminate. }
  assert (kvs (etcd world0) !! (Name (mkOrderService "svc" "host:1") +:+ "-" +:+ "a")
          = None) as H3 by (vm_compute; reflexivity).
  assert (Registry (mkOrderService "svc" "host:1") "a" (NewEtcdRegistry LeaseTTL) world0
          = (None, registered_once.1.2, registered_once.2)) as H4
    by (vm_compute; reflexivity).
  assert (DeRegistry registered_once.1.2 registered_once.2
          = (None, deregistered_single.1.2, deregistered_single.2)) as H5
    by (vm_compute; reflexivity).
  exact (conj H1 (conj H2 (conj H3 (conj H4 (conj H5
    (Registry_DeRegistry_round_trip _ _ _ _ _ _ _ _ H1 H2 H3 H4 H5)))))).
Defined.

(** X12: the two ways [DeRegistry] fails on a live lease.  If the revoke
    fails in transit it returns at once: nothing is revoked and the
    client is left open.  If the revoke succeeds and [Close] reports an
    error, that error is returned, but the lease and its records are
    gone and the client is closed. *)
Theorem DeRegistry_failures r w :
  closed (client r) = false →
  is_Some (leases (etcd w) !! ServiceRegistry.leaseID r) →
  match faults w with
  | true :: _ =>
      (DeRegistry r w).1 = (Some ErrUnavailable, r)
      ∧ etcd (DeRegistry r w).2 = etcd w
  | false :: true :: _ =>
      (DeRegistry r w).1.1 = Some ErrUnavailable
      ∧ closed (client (DeRegistry r w).1.2) = true
      ∧ leases (etcd (DeRegistry r w).2) !! ServiceRegistry.leaseID r = None
      ∧ ∀ k kv, kvs (etcd (DeRegistry r w).2) !! k = Some kv →
                Lease kv ≠ ServiceRegistry.leaseID r
  | _ => (DeRegistry r w).1.1 = None
  end.
Proof.
  intros Hc [t Ht]. rewrite DeRegistry_unfold by done. cbv zeta. rewrite Ht.
  destruct (faults w) as [|[] [|[] fs]]; simpl; try done.
  split_and!; try done.
  - rewrite leases_drop_lease. apply lookup_delete_eq.
  - intros k kv. rewrite kvs_drop_lease. intros Hk.
    apply map_lookup_filter_Some in Hk as [_ Hn]. done.
Qed.

Lemma DeRegistry_failures_witness :
  closed (client registered_once.1.2) = false
  ∧ is_Some (leases (etcd {| etcd := etcd registered_once.2; faults := [true] |})
               !! ServiceRegistry.leaseID registered_once.1.2)
  ∧ (DeRegistry registered_once.1.2
       {| etcd := etcd registered_once.2; faults := [true] |}).1
    = (Some ErrUnavailable, registered_once.1.2)
  ∧ etcd (DeRegistry registered_once.1.2
            {| etcd := etcd registered_once.2; faults := [true] |}).2
    = etcd {| etcd := etcd registered_once.2; faults := [true] |}.
Proof.
  assert (closed (client registered_once.1.2) = false) as H1
    by (vm_compute; reflexivity).
  assert (is_Some (leases (etcd {| etcd := etcd registered_once.2; faults := [true] |})
                     !! ServiceRegistry.leaseID registered_once.1.2)) as H2
    by (vm_compute; eexists; reflexivity).
  exact (conj H1 (conj H2
    (DeRegistry_failures registered_once.1.2
       {| etcd := etcd registered_once.2; faults := [true] |} H1 H2))).
Defined.

(** X13: a registry that has been deregistered is closed for good:
    every later [Registry] or [DeRegistry] through it fails without
    reaching the store. *)
Theorem closed_registry_is_unusable `{Service T} r w r' w' (service : T) u w'' :
  closed (client r) = false →
  DeRegistry r w = (None, r', w') →
  Registry service u r' w'' = (Some ErrUnavailable, r', w'')
  ∧ DeRegistry r' w'' = (Some ErrUnavailable, r', w'').
Proof.
  intros Hc Hd.
  destruct (DeRegistry_revokes_current _ _ _ _ Hc Hd) as (_ & _ & Hc').
  unfold Registry, DeRegistry, bind, call, ret. by rewrite Hc'.
Qed.

Lemma closed_registry_is_unusable_witness :
  closed (client registered_once.1.2) = false
  ∧ DeRegistry registered_once.1.2 registered_once.2
    = (None, deregistered_single.1.2, deregistered_single.2)
  ∧ Registry (mkOrderService "svc" "host:1") "c" deregistered_single.1.2 world0
    = (Some ErrUnavailable, deregistered_single.1.2, world0)
  ∧ DeRegistry deregistered_single.1.2 world0
    = (Some ErrUnavailable, deregistered_single.1.2, world0).
Proof.
  assert (closed (client registered_once.1.2) = false) as H1
    by (vm_compute; reflexivity).
  assert (DeRegistry registered_once.1.2 registered_once.2
          = (None, deregistered_single.1.2, deregistered_single.2)) as H2
    by (vm_compute; reflexivity).
  exact (conj H1 (conj H2
    (closed_registry_is_unusable _ _ _ _ (mkOrderService "svc" "host:1") "c" world0
       H1 H2))).
Defined.

(** The two registrations of [TestRegistry] when every call succeeds. *)
Lemma TestRegistry_registers u1 u2 s :
  ids_ok s →
  u1 ≠ u2 →
  ∃ r1 w1 r2 w2 rec1 rec2,
    Registry Tests.service1 u1
             {| client := {| closed := false |}; ServiceRegistry.leaseID := 0;
                leaseTTL := LeaseTTL; leaseKeepAliveRespCh := None |}
             {| etcd := s; faults := [] |} = (None, r1, w1)
    ∧ Registry Tests.service2 u2 r1 w1 = (None, r2, w2)
    ∧ faults w2 = []
    ∧ closed (client r2) = false
    ∧ ServiceRegistry.leaseID r2 = (next_lease s + 1)%Z
    ∧ kvs (etcd w2)
      = <["order_service" +:+ "-" +:+ u2 := rec2]>
          (<["order_service" +:+ "-" +:+ u1 := rec1]> (kvs s))
    ∧ Value rec1 = "localhost:8080"%string ∧ Lease rec1 = next_lease s
    ∧ Value rec2 = "localhost:8080"%string ∧ Lease rec2 = (next_lease s + 1)%Z
    ∧ leases (etcd w2)
      = <[(next_lease s + 1)%Z := LeaseTTL]> (<[next_lease s := LeaseTTL]> (leases s))
    ∧ "order_service" +:+ "-" +:+ u1 ≠ "order_service" +:+ "-" +:+ u2.
Proof.
  intros Hids Hu.
  assert ("order_service" +:+ "-" +:+ u1 ≠ "order_service" +:+ "-" +:+ u2) as Hne.
  { intros E. apply append_inj_r, append_inj_r in E. done. }
  set (w0 := {| etcd := s; faults := [] |}).
  set (r0 := {| client := {| closed := false |}; ServiceRegistry.leaseID := 0;
                leaseTTL := LeaseTTL; leaseKeepAliveRespCh := None |}).
  destruct (Registry Tests.service1 u1 r0 w0) as [[e1 r1] w1] eqn:H1.
  assert (e1 = None ∧ faults w1 = [] ∧ leaseTTL r1 = LeaseTTL) as (-> & Hfs1 & Ht1).
  { revert H1. rewrite Registry_unfold by done. simpl. by intros [= <- <- <-]. }
  destruct (Registry_record Tests.service1 u1 r0 w0 r1 w1 eq_refl H1)
    as (rec1 & Hk1 & Hv1 & Hl1 & Hid1 & Hn1 & Hls1 & Hc1).
  destruct (Registry Tests.service2 u2 r1 w1) as [[e2 r2] w2] eqn:H2.
  assert (e2 = None ∧ faults w2 = []) as [-> Hfs2].
  { revert H2. rewrite Registry_unfold by done. rewrite Hfs1. simpl.
    by intros [= <- <- <-]. }
  destruct (Registry_record _ _ _ _ _ _ Hc1 H2)
    as (rec2 & Hk2 & Hv2 & Hl2 & Hid2 & Hn2 & Hls2 & Hc2).
  simpl in Hk1, Hls1, Hid1, Hn1, Hk2.
  exists r1, w1, r2, w2, rec1, rec2. split_and!; try done.
  - by rewrite Hid2, Hn1.
  - by rewrite Hk2, Hk1.
  - by rewrite Hl1, Hid1.
  - by rewrite Hl2, Hid2, Hn1.
  - by rewrite Hls2, Hls1, Hn1, Ht1.
Qed.

(** [TestRegistry] when every call succeeds and the interrupt arrives. *)
Lemma TestRegistry_passes u1 u2 s :
  ids_ok s →
  u1 ≠ u2 →
  kvs s !! ("order_service" +:+ "-" +:+ u1) = None →
  kvs s !! ("order_service" +:+ "-" +:+ u2) = None →
  ∃ w' rec,
    Tests.TestRegistry false u1 u2 true {| etcd := s; faults := [] |}
    = (Tests.Passed, w')
    ∧ kvs (etcd w') = <["order_service" +:+ "-" +:+ u1 := rec]> (kvs s)
    ∧ Value rec = "localhost:8080"%string
    ∧ Lease rec = next_lease s
    ∧ leases (etcd w') = <[next_lease s := LeaseTTL]> (leases s)
    ∧ kvs (etcd w') !! ("order_service" +:+ "-" +:+ u2) = None
    ∧ faults w' = [].
Proof.
  intros Hids Hu Hf1 Hf2.
  destruct (TestRegistry_registers u1 u2 s Hids Hu)
    as (r1 & w1 & r2 & w2 & rec1 & rec2 & H1 & H2 & Hfs2 & Hc2 & Hid2 & Hk2
        & Hv1 & Hl1 & Hv2 & Hl2 & Hls2 & Hne).
  assert (DeRegistry r2 w2
          = (None,
             {| client := {| closed := true |};
                ServiceRegistry.leaseID := ServiceRegistry.leaseID r2;
                leaseTTL := leaseTTL r2;
                leaseKeepAliveRespCh := leaseKeepAliveRespCh r2 |},
             {| etcd := drop_lease (ServiceRegistry.leaseID r2) (etcd w2);
                faults := [] |})) as H3.
  { rewrite DeRegistry_unfold by done. cbv zeta. rewrite Hfs2. simpl.
    rewrite Hls2, Hid2, lookup_insert_eq. done. }
  eexists _, rec1. split_and!.
  - unfold Tests.TestRegistry. simpl. unfold bind, ret.
    rewrite H1. simpl. rewrite H2. simpl. rewrite H3. simpl. done.
  - simpl. rewrite kvs_drop_lease, Hk2, Hid2. apply filter_out_new.
    + by rewrite lookup_insert_ne.
    + done.
    + destruct Hids as (_ & _ & Hkv). apply map_Forall_insert_2.
      * simpl. rewrite Hl1. lia.
      * intros k kv Hk. specialize (Hkv _ _ Hk). simpl in *. lia.
  - done.
  - done.
  - simpl. rewrite leases_drop_lease, Hls2, Hid2, delete_insert_eq.
    apply delete_id. rewrite lookup_insert_ne by lia.
    destruct (leases s !! (next_lease s + 1)%Z) as [t|] eqn:E; [|done].
    destruct Hids as (_ & Hl & _). specialize (Hl _ _ E). simpl in Hl. lia.
  - simpl. rewrite kvs_drop_lease. apply map_lookup_filter_None. right.
    intros kv. rewrite Hk2, lookup_insert_eq. intros [= <-] Hn. apply Hn.
    unfold bound_to. simpl. by rewrite Hl2, Hid2.
  - done.
Qed.

(** X14: [TestRegistry], with every call succeeding.  Without an
    interrupt it never gets past its receive: both registrations stay in
    the store, each bound to its own live lease.  When the interrupt
    arrives it deregisters and passes, and leaves its first registration
    behind: the record of [service1] is still in the store, bound to a
    lease that is still alive, while the record of [service2] is gone;
    nothing else in the store has changed. *)
Theorem TestRegistry_leaves_first_record u1 u2 s :
  ids_ok s →
  u1 ≠ u2 →
  kvs s !! ("order_service" +:+ "-" +:+ u1) = None →
  kvs s !! ("order_service" +:+ "-" +:+ u2) = None →
  (∃ w rec1 rec2,
     Tests.TestRegistry false u1 u2 false {| etcd := s; faults := [] |}
     = (Tests.BlockedOnSignal, w)
     ∧ kvs (etcd w)
       = <["order_service" +:+ "-" +:+ u2 := rec2]>
           (<["order_service" +:+ "-" +:+ u1 := rec1]> (kvs s))
     ∧ Lease rec1 = next_lease s ∧ Lease rec2 = (next_lease s + 1)%Z
     ∧ is_Some (leases (etcd w) !! Lease rec1)
     ∧ is_Some (leases (etcd w) !! Lease rec2))
  ∧ ∃ w' rec,
      Tests.TestRegistry false u1 u2 true {| etcd := s; faults := [] |}
      = (Tests.Passed, w')
      ∧ kvs (etcd w') = <["order_service" +:+ "-" +:+ u1 := rec]> (kvs s)
      ∧ Value rec = "localhost:8080"%string
      ∧ Lease rec = next_lease s
      ∧ leases (etcd w') = <[next_lease s := LeaseTTL]> (leases s)
      ∧ kvs (etcd w') !! ("order_service" +:+ "-" +:+ u2) = None.
Proof.
  intros Hids Hu Hf1 Hf2. split.
  - destruct (TestRegistry_registers u1 u2 s Hids Hu)
      as (r1 & w1 & r2 & w2 & rec1 & rec2 & H1 & H2 & Hfs2 & Hc2 & Hid2 & Hk2
          & Hv1 & Hl1 & Hv2 & Hl2 & Hls2 & Hne).
    exists w2, rec1, rec2. split_and!; try done.
    + unfold Tests.TestRegistry. simpl. unfold bind, ret.
      rewrite H1. simpl. rewrite H2. simpl. done.
    + rewrite Hls2, Hl1, lookup_insert_ne by lia. rewrite lookup_insert_eq.
      by eexists.
    + rewrite Hls2, Hl2, lookup_insert_eq. by eexists.
  - destruct (TestRegistry_passes u1 u2 s Hids Hu Hf1 Hf2)
      as (w' & rec & H1 & H2 & H3 & H4 & H5 & H6 & _).
    by exists w', rec.
Qed.

Lemma TestRegistry_leaves_first_record_witness :
  ids_ok store_init
  ∧ "a"%string ≠ "b"%string
  ∧ kvs store_init !! ("order_service" +:+ "-" +:+ "a") = None
  ∧ kvs store_init !! ("order_service" +:+ "-" +:+ "b") = None
  ∧ (∃ w rec1 rec2,
       Tests.TestRegistry false "a" "b" false {| etcd := store_init; faults := [] |}
       = (Tests.BlockedOnSignal, w)
       ∧ kvs (etcd w)
         = <["order_service" +:+ "-" +:+ "b" := rec2]>
             (<["order_service" +:+ "-" +:+ "a" := rec1]> (kvs store_init))
       ∧ Lease rec1 = next_lease store_init
       ∧ Lease rec2 = (next_lease store_init + 1)%Z
       ∧ is_Some (leases (etcd w) !! Lease rec1)
       ∧ is_Some (leases (etcd w) !! Lease rec2))
  ∧ ∃ w' rec,
      Tests.TestRegistry false "a" "b" true {| etcd := store_init; faults := [] |}
      = (Tests.Passed, w')
      ∧ kvs (etcd w') = <["order_service" +:+ "-" +:+ "a" := rec]> (kvs store_init)
      ∧ Value rec = "localhost:8080"%string
      ∧ Lease rec = next_lease store_init
      ∧ leases (etcd w') = <[next_lease store_init := LeaseTTL]> (leases store_init)
      ∧ kvs (etcd w') !! ("order_service" +:+ "-" +:+ "b") = None.
Proof.
  assert (ids_ok store_init) as H1.
  { split_and!; [vm_compute; reflexivity | |];
      intros k x; simpl; rewrite lookup_empty; discriminate. }
  assert ("a"%string ≠ "b"%string) as H2 by discriminate.
  assert (kvs store_init !! ("order_service" +:+ "-" +:+ "a") = None) as H3
    by (vm_compute; reflexivity).
  assert (kvs store_init !! ("order_service" +:+ "-" +:+ "b") = None) as H4
    by (vm_compute; reflexivity).
  exact (conj H1 (conj H2 (conj H3 (conj H4
    (TestRegistry_leaves_first_record "a" "b" store_init H1 H2 H3 H4))))).
Defined.

(** What [GetServiceAddr] returns when it returns an address: the value
    of a stored record whose key starts with the name. *)
Lemma GetServiceAddr_found d name draw w :
  closed (d_client d) = false →
  hd false (faults w) = false →
  (∃ k kv, kvs (etcd w) !! k = Some kv ∧ String.prefix name k = true) →
  ∃ k kv, kvs (etcd w) !! k = Some kv ∧ String.prefix name k = true
          ∧ (GetServiceAddr d name draw w).1 = (Value kv, None).
Proof.
  intros Hc Hf (k0 & kv0 & Hk0 & Hp0).
  rewrite GetServiceAddr_read by done. cbv zeta.
  set (Kvs := map_to_list (filter (has_prefix name) (kvs (etcd w)))).
  assert ((k0, kv0) ∈ Kvs) as Hin by (by apply elem_of_prefix_read).
  assert (List.length Kvs ≠ 0) as Hn.
  { destruct Kvs; [by apply not_elem_of_nil in Hin | done]. }
  rewrite decide_False by done.
  assert (Intn draw (List.length Kvs) < List.length Kvs) as Hlt
    by (by apply Nat.mod_upper_bound).
  destruct (lookup_lt_is_Some_2 _ _ Hlt) as [[k kv] Hk].
  exists k, kv. rewrite Hk. simpl.
  assert ((k, kv) ∈ Kvs) as Hin' by (apply list_elem_of_lookup; eauto).
  apply elem_of_prefix_read in Hin' as [? ?]. done.
Qed.

(** X15: registration makes the service resolvable.  After a successful
    [Registry], [GetServiceAddr] for the service's name, whatever the
    random draw, does not fail: it returns the address stored in a
    record whose key starts with that name. *)
Theorem Registry_then_GetServiceAddr `{Service T} (service : T) u r w r' w' d draw :
  closed (client r) = false →
  closed (d_client d) = false →
  Registry service u r w = (None, r', w') →
  hd false (faults w') = false →
  ∃ k kv, kvs (etcd w') !! k = Some kv
          ∧ String.prefix (Name service) k = true
          ∧ (GetServiceAddr d (Name service) draw w').1 = (Value kv, None).
Proof.
  intros Hc Hd Hr Hf.
  destruct (Registry_record _ _ _ _ _ _ Hc Hr) as (rec & Hk & _).
  apply GetServiceAddr_found; try done.
  exists (Name service +:+ "-" +:+ u), rec. split.
  - by rewrite Hk, lookup_insert_eq.
  - apply prefix_app, prefix_refl.
Qed.

Lemma Registry_then_GetServiceAddr_witness :
  closed (client (NewEtcdRegistry LeaseTTL)) = false
  ∧ closed (d_client resolver) = false
  ∧ Registry (mkOrderService "svc" "host:1") "a" (NewEtcdRegistry LeaseTTL) world0
    = (None, registered_once.1.2, registered_once.2)
  ∧ hd false (faults registered_once.2) = false
  ∧ ∃ k kv, kvs (etcd registered_once.2) !! k = Some kv
            ∧ String.prefix (Name (mkOrderService "svc" "host:1")) k = true
            ∧ (GetServiceAddr resolver (Name (mkOrderService "svc" "host:1")) 7
                              registered_once.2).1 = (Value kv, None).
Proof.
  assert (closed (client (NewEtcdRegistry LeaseTTL)) = false) as H1 by reflexivity.
  assert (closed (d_client resolver) = false) as H2 by reflexivity.
  assert (Registry (mkOrderService "svc" "host:1") "a" (NewEtcdRegistry LeaseTTL) world0
          = (None, registered_once.1.2, registered_once.2)) as H3
    by (vm_compute; reflexivity).
  assert (hd false (faults registered_once.2) = false) as H4
    by (vm_compute; reflexivity).
  exact (conj H1 (conj H2 (conj H3 (conj H4
    (Registry_then_GetServiceAddr _ "a" _ _ _ _ resolver 7 H1 H2 H3 H4))))).
Defined.

(** X16: when every record under the name carries the same address (as
    the two instances [TestRegistry] registers do), the answer of
    [GetServiceAddr] does not depend on the random draw. *)
Theorem GetServiceAddr_same_address d name draw w a :
  closed (d_client d) = false →
  hd false (faults w) = false →
  (∃ k kv, kvs (etcd w) !! k = Some kv ∧ String.prefix name k = true) →
  (∀ k kv, kvs (etcd w) !! k = Some kv → String.prefix name k = true → Value kv = a) →
  (GetServiceAddr d name draw w).1 = (a, None).
Proof.
  intros Hc Hf Hex Hall.
  destruct (GetServiceAddr_found d name draw w Hc Hf Hex) as (k & kv & Hk & Hp & ->).
  by rewrite (Hall k kv Hk Hp).
Qed.

(** [TestRegistry]'s two instances, both registered. *)
Lemma GetServiceAddr_same_address_witness :
  closed (d_client resolver) = false
  ∧ hd false (faults (Registry Tests.service2 "b"
                        (Registry Tests.service1 "a"
                                  (NewEtcdRegistry LeaseTTL) world0).1.2
                        (Registry Tests.service1 "a"
                                  (NewEtcdRegistry LeaseTTL) world0).2).2) = false
  ∧ (GetServiceAddr resolver "order_service" 1
       (Registry Tests.service2 "b"
          (Registry Tests.service1 "a" (NewEtcdRegistry LeaseTTL) world0).1.2
          (Registry Tests.service1 "a" (NewEtcdRegistry LeaseTTL) world0).2).2).1
    = ("localhost:8080"%string, None).
Proof.
  assert (closed (d_client resolver) = false) as H1 by reflexivity.
  assert (hd false (faults (Registry Tests.service2 "b"
                              (Registry Tests.service1 "a"
                                        (NewEtcdRegistry LeaseTTL) world0).1.2
                              (Registry Tests.service1 "a"
                                        (NewEtcdRegistry LeaseTTL) world0).2).2) = false)
    as H2 by (vm_compute; reflexivity).
  refine (conj H1 (conj H2
    (GetServiceAddr_same_address resolver "order_service" 1 _ _ H1 H2 _ _))).
  - exists "order_service-a"%string, (mkKeyValue "localhost:8080" 2 2 1).
    split; vm_compute; reflexivity.
  - intros k kv Hk _.
    assert (kvs (etcd (Registry Tests.service2 "b"
                         (Registry Tests.service1 "a"
                                   (NewEtcdRegistry LeaseTTL) world0).1.2
                         (Registry Tests.service1 "a"
                                   (NewEtcdRegistry LeaseTTL) world0).2).2)
            = <["order_service-b"%string := mkKeyValue "localhost:8080" 3 3 2]>
                (<["order_service-a"%string := mkKeyValue "localhost:8080" 2 2 1]> ∅))
      as E by (vm_compute; reflexivity).
    rewrite E in Hk. apply lookup_insert_Some in Hk as [[_ <-]|[_ Hk]]; [done|].
    apply lookup_insert_Some in Hk as [[_ <-]|[_ Hk]]; [done|].
    by rewrite lookup_empty in Hk.
Defined.

Lemma prefix_empty k : String.prefix "" k = true.
Proof. by destruct k. Qed.

(** X17: the empty name matches every key.  [GetServiceAddr("")] fails
    with "service not found" only on a store without any record, and
    otherwise returns the address of some record, whatever service it
    belongs to. *)
Theorem GetServiceAddr_empty_name d draw w :
  closed (d_client d) = false →
  hd false (faults w) = false →
  ((GetServiceAddr d "" draw w).1 = (""%string, Some ErrServiceNotFound)
   ↔ kvs (etcd w) = ∅)
  ∧ (kvs (etcd w) ≠ ∅ →
     ∃ k kv, kvs (etcd w) !! k = Some kv
             ∧ (GetServiceAddr d "" draw w).1 = (Value kv, None)).
Proof.
  intros Hc Hf.
  assert (filter (has_prefix "") (kvs (etcd w)) = kvs (etcd w)) as Hall.
  { apply map_filter_id. intros k kv _. apply prefix_empty. }
  assert (kvs (etcd w) ≠ ∅ →
          ∃ k kv, kvs (etcd w) !! k = Some kv
                  ∧ (GetServiceAddr d "" draw w).1 = (Value kv, None)) as Hsome.
  { intros Hne. apply map_choose in Hne as (k0 & kv0 & Hk0).
    destruct (GetServiceAddr_found d "" draw w Hc Hf) as (k & kv & Hk & _ & Hr).
    - exists k0, kv0. split; [done | apply prefix_empty].
    - by exists k, kv. }
  split; [|done]. split.
  - intros Hr. destruct (decide (kvs (etcd w) = ∅)) as [|Hne]; [done|].
    destruct (Hsome Hne) as (k & kv & _ & Hr'). congruence.
  - intros He. rewrite GetServiceAddr_read by done. cbv zeta.
    rewrite Hall, He, map_to_list_empty. done.
Qed.

Lemma GetServiceAddr_empty_name_witness :
  closed (d_client resolver) = false
  ∧ hd false (faults world0) = false
  ∧ ((GetServiceAddr resolver "" 0 world0).1 = (""%string, Some ErrServiceNotFound)
     ↔ kvs (etcd world0) = ∅).
Proof.
  assert (closed (d_client resolver) = false) as H1 by reflexivity.
  assert (hd false (faults world0) = false) as H2 by reflexivity.
  exact (conj H1 (conj H2
    (proj1 (GetServiceAddr_empty_name resolver 0 world0 H1 H2)))).
Defined.

(** [GetServiceAddr] when no key starts with the name. *)
Lemma GetServiceAddr_none d name draw w :
  closed (d_client d) = false →
  hd false (faults w) = false →
  (∀ k, is_Some (kvs (etcd w) !! k) → String.prefix name k = false) →
  (GetServiceAddr d name draw w).1 = (""%string, Some ErrServiceNotFound).
Proof.
  intros Hc Hf Hnone. rewrite GetServiceAddr_read by done. cbv zeta.
  assert (filter (has_prefix name) (kvs (etcd w)) = ∅) as ->.
  { apply map_empty. intros k. apply map_lookup_filter_None. right.
    intros kv Hk Hp. unfold has_prefix in Hp. simpl in Hp.
    rewrite Hnone in Hp by (by eexists). done. }
  by rewrite map_to_list_empty.
Qed.

(** X18: [TestDiscovery] after [TestRegistry] has been interrupted and
    has passed, on a store that held no other instance of
    "order_service".  As long as the store has not expired the lease of
    the registration [TestRegistry] left behind, [TestDiscovery] still
    discovers the service and logs "localhost:8080", whatever the random
    draw; once the store has expired that lease, the store holds what it
    held before [TestRegistry] and [TestDiscovery] stops on "service not
    found". *)
Theorem TestDiscovery_after_TestRegistry u1 u2 s draw :
  ids_ok s →
  u1 ≠ u2 →
  (∀ k, is_Some (kvs s !! k) → String.prefix "order_service" k = false) →
  ∃ w',
    Tests.TestRegistry false u1 u2 true {| etcd := s; faults := [] |}
    = (Tests.Passed, w')
    ∧ (Tests.TestDiscovery false draw w').1
      = inr ("localhost:8080"%string, None)
    ∧ kvs (store_expire (next_lease s) (etcd w')) = kvs s
    ∧ (Tests.TestDiscovery false draw
         {| etcd := store_expire (next_lease s) (etcd w'); faults := [] |}).1
      = inr (""%string, Some ErrServiceNotFound).
Proof.
  intros Hids Hu Hnone.
  assert (∀ u, kvs s !! ("order_service" +:+ "-" +:+ u) = None) as Hfree.
  { intros u. destruct (kvs s !! ("order_service" +:+ "-" +:+ u)) as [kv|] eqn:E; [|done].
    assert (String.prefix "order_service" ("order_service" +:+ "-" +:+ u) = false) as Hp
      by (apply Hnone; by eexists).
    by rewrite (prefix_app "order_service" "order_service" _ (prefix_refl _)) in Hp. }
  destruct (TestRegistry_passes u1 u2 s Hids Hu (Hfree u1) (Hfree u2))
    as (w' & rec & Hrun & Hk & Hv & Hl & Hls & _ & Hfs).
  assert (∀ w, (Tests.TestDiscovery false draw w).1
               = inr (GetServiceAddr {| d_client := {| closed := false |} |}
                                     "order_service" draw w).1) as Hdisc.
  { intros w. unfold Tests.TestDiscovery. simpl. unfold bind, ret.
    by destruct (GetServiceAddr _ _ _ _). }
  assert (kvs (store_expire (next_lease s) (etcd w')) = kvs s) as Hback.
  { unfold store_expire. rewrite Hls, lookup_insert_eq.
    rewrite kvs_drop_lease, Hk. apply filter_out_new; try done.
    by destruct Hids as (_ & _ & ?). }
  exists w'. split_and!; try done.
  - rewrite Hdisc. f_equal.
    destruct (GetServiceAddr_found {| d_client := {| closed := false |} |}
                "order_service" draw w') as (k & kv & Hkv & Hp & ->).
    + done.
    + by rewrite Hfs.
    + exists ("order_service" +:+ "-" +:+ u1), rec. split.
      * by rewrite Hk, lookup_insert_eq.
      * apply prefix_app, prefix_refl.
    + rewrite Hk in Hkv. apply lookup_insert_Some in Hkv as [[_ <-]|[_ Hkv]].
      * by rewrite Hv.
      * rewrite Hnone in Hp by (by eexists). done.
  - rewrite Hdisc. f_equal. apply GetServiceAddr_none; try done.
    simpl. by rewrite Hback.
Qed.

Lemma TestDiscovery_after_TestRegistry_witness :
  ids_ok store_init
  ∧ "a"%string ≠ "b"%string
  ∧ ∃ w',
      Tests.TestRegistry false "a" "b" true {| etcd := store_init; faults := [] |}
      = (Tests.Passed, w')
      ∧ (Tests.TestDiscovery false 0 w').1 = inr ("localhost:8080"%string, None)
      ∧ kvs (store_expire (next_lease store_init) (etcd w')) = kvs store_init
      ∧ (Tests.TestDiscovery false 0
           {| etcd := store_expire (next_lease store_init) (etcd w');
              faults := [] |}).1
        = inr (""%string, Some ErrServiceNotFound).
Proof.
  assert (ids_ok store_init) as H1.
  { split_and!; [vm_compute; reflexivity | |];
      intros k x; simpl; rewrite lookup_empty; discriminate. }
  assert ("a"%string ≠ "b"%string) as H2 by discriminate.
  refine (conj H1 (conj H2
    (TestDiscovery_after_TestRegistry "a" "b" store_init 0 H1 H2 _))).
  intros k [kv Hk]. simpl in Hk. rewrite lookup_empty in Hk. discriminate.
Defined.

(** X19: [TestEtcd] reads back what it put.  With every call succeeding,
    whatever the store held before (the key included), it logs the put
    response and then exactly one pair, "sample_key" with
    "sample_value"; afterwards the key holds that value, bound to no
    lease, at a new modification revision, with the creation revision it
    had if it existed; no other key has changed. *)
Theorem TestEtcd_reads_what_it_put s :
  ∃ w' kv,
    Tests.TestEtcd false {| etcd := s; faults := [] |}
    = (None, [Tests.LogPutResponse; Tests.LogGet "sample_key" "sample_value"], w')
    ∧ kvs (etcd w') !! "sample_key"%string = Some kv
    ∧ Value kv = "sample_value"%string
    ∧ Lease kv = NoLease
    ∧ mvccpb.ModRevision kv = (revision s + 1)%Z
    ∧ mvccpb.CreateRevision kv
      = from_option mvccpb.CreateRevision (revision s + 1)%Z
                    (kvs s !! "sample_key"%string)
    ∧ ∀ k, k ≠ "sample_key"%string → kvs (etcd w') !! k = kvs s !! k.
Proof.
  eexists _, _. split_and!.
  - unfold Tests.TestEtcd, Connect.New, bind, call, ret, rpc, Close,
      store_put, store_get. simpl.
    unfold put_at. simpl. rewrite lookup_insert_eq. simpl. done.
  - simpl. apply lookup_insert_eq.
  - done.
  - done.
  - done.
  - simpl. by destruct (kvs s !! "sample_key"%string).
  - intros k Hk. simpl. by rewrite lookup_insert_ne.
Qed.

Lemma ids_ok_granted ttl s : ids_ok s → ids_ok (granted ttl s).
Proof.
  intros (Hn & Hl & Hk). split_and!; simpl.
  - lia.
  - apply map_Forall_insert_2; [simpl; lia|].
    intros l t Hlt. specialize (Hl _ _ Hlt). simpl in *. lia.
  - intros k kv Hkv. specialize (Hk _ _ Hkv). simpl in *. lia.
Qed.

Lemma ids_ok_put_at rev k v l s :
  ids_ok s → (l < next_lease s)%Z → ids_ok (put_at rev k v l s).
Proof.
  intros (Hn & Hl & Hk) Hlt. split_and!; try done.
  unfold put_at. rewrite kvs_notify. simpl. by apply map_Forall_insert_2.
Qed.

Lemma ids_ok_drop_lease l s : ids_ok s → ids_ok (drop_lease l s).
Proof.
  intros (Hn & Hl & Hk).
  split_and!; rewrite ?next_lease_drop_lease, ?leases_drop_lease, ?kvs_drop_lease.
  - done.
  - by apply map_Forall_delete.
  - intros k kv Hkv. apply map_lookup_filter_Some in Hkv as [Hkv _].
    by apply (Hk k kv).
Qed.

Lemma leases_cover_drop_lease l s : leases_cover s → leases_cover (drop_lease l s).
Proof.
  intros Hs k kv. rewrite kvs_drop_lease, leases_drop_lease. intros Hkv.
  apply map_lookup_filter_Some in Hkv as [Hkv Hn]. simpl.
  destruct (Hs k kv Hkv) as [?|?]; [by left|]. right.
  rewrite lookup_delete_ne; [done|]. unfold bound_to in Hn. simpl in Hn. congruence.
Qed.

(** X20: whatever they return, and whichever of their calls fail,
    [Registry] and [DeRegistry] keep the store consistent: lease ids
    stay positive and below the lease counter, and no record is left
    bound to a lease that is not alive. *)
Theorem registry_keeps_store_consistent `{Service T} (service : T) u r w :
  ids_ok (etcd w) →
  leases_cover (etcd w) →
  (ids_ok (etcd (Registry service u r w).2)
   ∧ leases_cover (etcd (Registry service u r w).2))
  ∧ (ids_ok (etcd (DeRegistry r w).2)
     ∧ leases_cover (etcd (DeRegistry r w).2)).
Proof.
  intros Hids Hcov. destruct (closed (client r)) eqn:Hc.
  { unfold Registry, DeRegistry, bind, call, ret. rewrite Hc. done. }
  rewrite Registry_unfold, DeRegistry_unfold by done. cbv zeta.
  assert (ids_ok (granted (leaseTTL r) (etcd w))) as Hids1
    by (by apply ids_ok_granted).
  assert (leases_cover (granted (leaseTTL r) (etcd w))) as Hcov1
    by (by apply leases_cover_granted).
  split.
  - destruct (hd false (faults w)); [done|].
    destruct (hd false (tl (faults w))); [done|].
    assert (ids_ok (put_at (revision (granted (leaseTTL r) (etcd w)) + 1)
                           (Name service +:+ "-" +:+ u) (Addr service)
                           (next_lease (etcd w)) (granted (leaseTTL r) (etcd w)))
            ∧ leases_cover
                (put_at (revision (granted (leaseTTL r) (etcd w)) + 1)
                        (Name service +:+ "-" +:+ u) (Addr service)
                        (next_lease (etcd w)) (granted (leaseTTL r) (etcd w)))) as Hput.
    { split.
      - apply ids_ok_put_at; [done | simpl; lia].
      - apply leases_cover_put_at; [done|]. simpl. rewrite lookup_insert_eq.
        by eexists. }
    by destruct (hd false (tl (tl (faults w)))).
  - destruct (hd false (faults w)); [done|].
    destruct (leases (etcd w) !! ServiceRegistry.leaseID r); [|done]. simpl.
    split; [by apply ids_ok_drop_lease | by apply leases_cover_drop_lease].
Qed.

Lemma registry_keeps_store_consistent_witness :
  ids_ok (etcd world_put_fails)
  ∧ leases_cover (etcd world_put_fails)
  ∧ (ids_ok (etcd (Registry (mkOrderService "svc" "host:1") "u1"
                            (NewEtcdRegistry LeaseTTL) world_put_fails).2)
     ∧ leases_cover (etcd (Registry (mkOrderService "svc" "host:1") "u1"
                                    (NewEtcdRegistry LeaseTTL) world_put_fails).2))
  ∧ (ids_ok (etcd (DeRegistry (NewEtcdRegistry LeaseTTL) world_put_fails).2)
     ∧ leases_cover (etcd (DeRegistry (NewEtcdRegistry LeaseTTL) world_put_fails).2)).
Proof.
  assert (ids_ok (etcd world_put_fails)) as H1.
  { split_and!; [vm_compute; reflexivity | |];
      intros k x; simpl; rewrite lookup_empty; discriminate. }
  assert (leases_cover (etcd world_put_fails)) as H2.
  { intros k kv. simpl. rewrite lookup_empty. discriminate. }
  exact (conj H1 (conj H2
    (registry_keeps_store_consistent (mkOrderService "svc" "host:1") "u1"
       (NewEtcdRegistry LeaseTTL) world_put_fails H1 H2))).
Defined.
